(** * keep-core: DKG group fault filters and group expiration

    A shallow embedding of
    - the member filters of package [group] (the [InactiveMemberFilter]
      and [DisqualifiedMemberFilter] proxies and the [MessageFiltering]
      capability), and
    - the group selection contract of RFC 6 (group expiration),
    together with the properties the specification states about them. *)

From Equations Require Import Equations.
From Equations.Prop Require Import Logic.
From stdpp Require Import gmap list strings.

Set Default Proof Using "Type".
Set Warnings "-clear-no-such-hyp".

(** ** Go computations over a heap of groups

    A filter holds a [*Group]; several filters share one group through
    that pointer.  A computation reads and writes the heap of groups and
    either returns a value with the new heap or panics (a nil or dangling
    pointer dereference), which is [None]. *)

Abbreviation MemberIndex := nat (only parsing).
Abbreviation loc := nat (only parsing).

Section go_monad.
Context {S : Type}.

Definition Go (A : Type) : Type := S → option (A * S).

Definition go_ret {A} (a : A) : Go A := λ h, Some (a, h).

Definition go_bind {A B} (c : Go A) (k : A → Go B) : Go B :=
  λ h, match c h with
       | Some (a, h') => k a h'
       | None => None
       end.

(** [for _, x := range l { body x }] *)
Fixpoint for_range {A} (l : list A) (body : A → Go unit) : Go unit :=
  match l with
  | [] => go_ret tt
  | x :: l' => go_bind (body x) (λ _, for_range l' body)
  end.
End go_monad.

Arguments Go : clear implicits.

Notation "'let*' x ':=' c 'in' k" := (go_bind c (λ x, k))
  (at level 10, x pattern, c at level 100, k at level 200, only parsing).

(** ** The Group record *)

Module Group.

(** Modelled from the spec: the [Group] type is declared in a file of
    package [group] that is not among the sources.  The data model gives
    it an ordered member sequence and two fault sets. *)
Record t := mk {
  members : list MemberIndex;
  inactiveMembers : gset MemberIndex;
  disqualifiedMembers : gset MemberIndex
}.

(** Modelled from the spec: the method [OperatingMemberIDs] of the absent
    [Group]; "operatingMembers (derived, not stored):
    members − inactiveMembers − disqualifiedMembers, recomputed on
    demand". *)
Definition OperatingMemberIDs (g : t) : list MemberIndex :=
  filter (λ m, (m ∉ inactiveMembers g) ∧ (m ∉ disqualifiedMembers g))
         (members g).

(** Modelled from the spec: the method [MarkMemberAsInactive] of the
    absent [Group]; the member index joins the [inactiveMembers] set. *)
Definition MarkMemberAsInactive (memberID : MemberIndex) (g : t) : t :=
  {| members := members g;
     inactiveMembers := inactiveMembers g ∪ {[memberID]};
     disqualifiedMembers := disqualifiedMembers g |}.

(** Modelled from the spec: the method [MarkMemberAsDisqualified] of the
    absent [Group]; the member index joins the [disqualifiedMembers]
    set. *)
Definition MarkMemberAsDisqualified (memberID : MemberIndex) (g : t) : t :=
  {| members := members g;
     inactiveMembers := inactiveMembers g;
     disqualifiedMembers := disqualifiedMembers g ∪ {[memberID]} |}.

(** Modelled from the spec: the method [IsSenderAccepted] by which the
    absent [Group] implements [MessageFiltering]; "true iff senderID is
    in members and not in disqualifiedMembers ∪ inactiveMembers at the
    time of the call". *)
Definition IsSenderAccepted (g : t) (senderID : MemberIndex) : bool :=
  bool_decide (senderID ∈ members g
               ∧ senderID ∉ disqualifiedMembers g ∪ inactiveMembers g).

End Group.

Abbreviation heap := (gmap loc Group.t) (only parsing).

(** Dereferencing a [*Group] and the method calls made through it. *)
Definition deref (p : loc) : Go heap Group.t :=
  λ h, match h !! p with
       | Some g => Some (g, h)
       | None => None
       end.

Definition assign (p : loc) (g : Group.t) : Go heap unit :=
  λ h, Some (tt, <[p := g]> h).

Definition call_OperatingMemberIDs (p : loc) : Go heap (list MemberIndex) :=
  let* g := deref p in go_ret (Group.OperatingMemberIDs g).

Definition call_MarkMemberAsInactive (p : loc) (memberID : MemberIndex)
  : Go heap unit :=
  let* g := deref p in assign p (Group.MarkMemberAsInactive memberID g).

Definition call_MarkMemberAsDisqualified (p : loc) (memberID : MemberIndex)
  : Go heap unit :=
  let* g := deref p in assign p (Group.MarkMemberAsDisqualified memberID g).

(** ** Message filtering *)

(** [type MessageFiltering interface { IsSenderAccepted(senderID) bool }] *)
Class MessageFiltering (T : Type) :=
  filter_IsSenderAccepted : T → MemberIndex → Go heap bool.

(** [type ProtocolMessage interface { SenderID() MemberIndex }] *)
Class ProtocolMessage (M : Type) :=
  SenderID : M → MemberIndex.

(** A [*Group] is the [MessageFiltering] the protocol uses. *)
#[global] Instance group_MessageFiltering : MessageFiltering loc :=
  λ p senderID, let* g := deref p in go_ret (Group.IsSenderAccepted g senderID).

Definition IsMessageFromSelf `{ProtocolMessage M}
    (memberIndex : MemberIndex) (message : M) : bool :=
  if decide (SenderID message = memberIndex) then true else false.

Definition IsSenderAccepted `{MessageFiltering T} `{ProtocolMessage M}
    (filter : T) (message : M) : Go heap bool :=
  filter_IsSenderAccepted filter (SenderID message).

(** ** InactiveMemberFilter *)

Record InactiveMemberFilter := mkInactiveMemberFilter {
  imf_selfMemberID : MemberIndex;
  imf_group : loc;
  phaseActiveMembers : list MemberIndex
}.

Definition NewInactiveMemberFilter (selfMemberIndex : MemberIndex) (group : loc)
  : InactiveMemberFilter :=
  {| imf_selfMemberID := selfMemberIndex;
     imf_group := group;
     phaseActiveMembers := [] |}.

Definition MarkMemberAsActive (memberID : MemberIndex)
    (mf : InactiveMemberFilter) : Go heap InactiveMemberFilter :=
  go_ret {| imf_selfMemberID := imf_selfMemberID mf;
            imf_group := imf_group mf;
            phaseActiveMembers := phaseActiveMembers mf ++ [memberID] |}.

(** The inner loop of both predicates: the first mark equal to [id]
    returns [true], no such mark returns [false]. *)
Fixpoint range_finds (marked : list MemberIndex) (id : MemberIndex) : bool :=
  match marked with
  | [] => false
  | markedID :: rest =>
      if decide (markedID = id) then true else range_finds rest id
  end.

Definition isActive (mf : InactiveMemberFilter) (id : MemberIndex) : bool :=
  if decide (id = imf_selfMemberID mf) then true
  else range_finds (phaseActiveMembers mf) id.

Definition FlushInactiveMembers (mf : InactiveMemberFilter) : Go heap unit :=
  let* operating := call_OperatingMemberIDs (imf_group mf) in
  for_range operating (λ operatingMemberID,
    if negb (isActive mf operatingMemberID)
    then call_MarkMemberAsInactive (imf_group mf) operatingMemberID
    else go_ret tt).

(** ** DisqualifiedMemberFilter *)

Record DisqualifiedMemberFilter := mkDisqualifiedMemberFilter {
  dmf_selfMemberID : MemberIndex;
  dmf_group : loc;
  phaseDisqualifiedMembers : list MemberIndex
}.

Definition NewDisqualifiedMemberFilter (selfMemberIndex : MemberIndex)
    (group : loc) : DisqualifiedMemberFilter :=
  {| dmf_selfMemberID := selfMemberIndex;
     dmf_group := group;
     phaseDisqualifiedMembers := [] |}.

Definition MarkMemberAsDisqualified (memberID : MemberIndex)
    (mf : DisqualifiedMemberFilter) : Go heap DisqualifiedMemberFilter :=
  go_ret {| dmf_selfMemberID := dmf_selfMemberID mf;
            dmf_group := dmf_group mf;
            phaseDisqualifiedMembers := phaseDisqualifiedMembers mf ++ [memberID] |}.

Definition isDisqualified (mf : DisqualifiedMemberFilter) (id : MemberIndex)
  : bool :=
  if decide (id = dmf_selfMemberID mf) then false
  else range_finds (phaseDisqualifiedMembers mf) id.

Definition FlushDisqualifiedMembers (mf : DisqualifiedMemberFilter)
  : Go heap unit :=
  let* operating := call_OperatingMemberIDs (dmf_group mf) in
  for_range operating (λ operatingMemberID,
    if isDisqualified mf operatingMemberID
    then call_MarkMemberAsDisqualified (dmf_group mf) operatingMemberID
    else go_ret tt).

(** A phase as the protocol drives a filter: the marks made while the
    messages of the phase are processed, in order. *)
Fixpoint mark_active_all (ids : list MemberIndex) (mf : InactiveMemberFilter)
  : Go heap InactiveMemberFilter :=
  match ids with
  | [] => go_ret mf
  | id :: rest => let* mf' := MarkMemberAsActive id mf in mark_active_all rest mf'
  end.

Fixpoint mark_disqualified_all (ids : list MemberIndex)
    (mf : DisqualifiedMemberFilter) : Go heap DisqualifiedMemberFilter :=
  match ids with
  | [] => go_ret mf
  | id :: rest =>
      let* mf' := MarkMemberAsDisqualified id mf in mark_disqualified_all rest mf'
  end.

Definition inactive_phase (self : MemberIndex) (group : loc)
    (marks : list MemberIndex) : Go heap unit :=
  let* mf := mark_active_all marks (NewInactiveMemberFilter self group) in
  FlushInactiveMembers mf.

Definition disqualified_phase (self : MemberIndex) (group : loc)
    (marks : list MemberIndex) : Go heap unit :=
  let* mf := mark_disqualified_all marks (NewDisqualifiedMemberFilter self group) in
  FlushDisqualifiedMembers mf.

(** A flush of either kind, for runs that interleave them. *)
Inductive FlushCall :=
| CallFlushInactive (mf : InactiveMemberFilter)
| CallFlushDisqualified (mf : DisqualifiedMemberFilter).

Definition flush_group (c : FlushCall) : loc :=
  match c with
  | CallFlushInactive mf => imf_group mf
  | CallFlushDisqualified mf => dmf_group mf
  end.

Definition run_flush (c : FlushCall) : Go heap unit :=
  match c with
  | CallFlushInactive mf => FlushInactiveMembers mf
  | CallFlushDisqualified mf => FlushDisqualifiedMembers mf
  end.

Definition run_flushes (calls : list FlushCall) : Go heap unit :=
  for_range calls run_flush.

Definition example_group : Group.t :=
  Group.mk [1; 2; 3; 4; 5] ∅ ∅.


(** The fault sets of every group of [h] are still there in [h'], none
    of them smaller, and the member sequence is the same. *)
Definition fault_sets_grow (h h' : heap) : Prop :=
  ∀ p G, h !! p = Some G →
    ∃ G', h' !! p = Some G'
      ∧ Group.members G' = Group.members G
      ∧ Group.inactiveMembers G ⊆ Group.inactiveMembers G'
      ∧ Group.disqualifiedMembers G ⊆ Group.disqualifiedMembers G'.

(** The least protocol message: it carries its sender and nothing else. *)
Record BareMessage := mkBareMessage { bare_sender : MemberIndex }.

#[global] Instance BareMessage_ProtocolMessage : ProtocolMessage BareMessage :=
  bare_sender.

(** ** Group selection contract (RFC 6) *)

Module Registry.

(** "current state indicating if the group is active or expired" *)
Inductive AgreementState := Active | Expired.

#[global] Instance AgreementState_eq_dec : EqDecision AgreementState.
Proof. solve_decision. Defined.

(** The information kept per group formation agreement.  Times are
    block heights. *)
Record Agreement := mkAgreement {
  id : nat;
  members : list nat;
  registrationTime : nat;
  timeout : nat;
  state : AgreementState
}.

#[global] Instance Agreement_eq_dec : EqDecision Agreement.
Proof. solve_decision. Defined.

(** The information kept by the group selection contract. *)
Record t := mk {
  activeGroupList : list Agreement;
  activeGroupsCounter : nat;
  activeGroupsThreshold : nat;
  expiredGroupList : list Agreement
}.

(** Registration: the agreement is added to the active groups list, the
    counter is incremented, and the agreement is filled in with the
    current block time and the active state. *)
Definition Registration (newId : nat) (groupMembers : list nat)
    (currentTime groupTimeout : nat) (r : t) : t :=
  {| activeGroupList :=
       activeGroupList r ++
         [ {| id := newId; members := groupMembers;
              registrationTime := currentTime; timeout := groupTimeout;
              state := Active |} ];
     activeGroupsCounter := S (activeGroupsCounter r);
     activeGroupsThreshold := activeGroupsThreshold r;
     expiredGroupList := expiredGroupList r |}.

(** "set the group agreement status to expired" *)
Definition set_expired (a : Agreement) : Agreement :=
  {| id := id a; members := members a;
     registrationTime := registrationTime a; timeout := timeout a;
     state := Expired |}.

(** "Move the expired group agreement from the active groups list to the
    expired groups list and decrease the active group counter by one."
    The candidate sits at position [i] of the active list.  The counter
    is an unsigned number: decreasing stops at zero. *)
Definition expire (i : nat) (candidate : Agreement) (r : t) : t :=
  {| activeGroupList := delete i (activeGroupList r);
     activeGroupsCounter := activeGroupsCounter r - 1;
     activeGroupsThreshold := activeGroupsThreshold r;
     expiredGroupList := expiredGroupList r ++ [set_expired candidate] |}.

(** "current block time is larger than the group registration time plus
    the timeout" *)
Definition is_expired (currentTime : nat) (a : Agreement) : bool :=
  registrationTime a + timeout a <? currentTime.

(** One round of selection and group status verification.  [draw] is the
    random number of this round; it selects a position of the active
    groups list.  A position holds no candidate exactly when the list is
    empty; the round then responds with [NoEligibleGroup]. *)
Inductive Round :=
| Respond (selected : option Agreement)
| SelectNext (r' : t).

(** Modelled from the spec: what selection answers when the active groups
    list is empty.  RFC 6 has no line for it.  The specification (4.3,
    step 3, and 7, "No eligible group") has this case "surfaced as a 'no
    eligible group' condition to the caller rather than looping forever",
    "reported to the caller as an explicit 'unavailable' outcome" and not
    as an error: the response that presents no group. *)
Definition NoEligibleGroup : option Agreement := None.

Definition verify (currentTime draw : nat) (r : t) : Round :=
  let i := draw mod length (activeGroupList r) in
  match activeGroupList r !! i with
  | None => Respond NoEligibleGroup
  | Some candidate =>
      if activeGroupsCounter r <? activeGroupsThreshold r
      then Respond (Some candidate)
      else if is_expired currentTime candidate
           then SelectNext (expire i candidate r)
           else Respond (Some candidate)
  end.

(** Selection: rounds are repeated, each with the next random number of
    [rnd], "until an active group is found or the number of active
    groups falls below the active groups threshold".  The result is the
    group presented to the work contract, if any, and the registry the
    contract is left with. *)
Equations? Selection (rnd : nat → nat) (currentTime : nat) (r : t)
  : option Agreement * t by wf (length (activeGroupList r)) lt :=
  Selection rnd currentTime r with inspect (verify currentTime (rnd 0) r) := {
    | exist _ (Respond selected) _ => (selected, r)
    | exist _ (SelectNext r') Hround =>
        Selection (λ n, rnd (S n)) currentTime r' }.
Proof.
  clear Selection. unfold verify in Hround.
  destruct (activeGroupList r !! _) as [candidate|] eqn:Hcandidate; [|done].
  apply lookup_lt_Some in Hcandidate.
  repeat case_match; simplify_eq. simpl.
  rewrite length_delete; [lia|]. by apply lookup_lt_is_Some_2.
Qed.

(** The same loop, cut off after [rounds] rounds. *)
Fixpoint Selection_within (rounds : nat) (rnd : nat → nat)
    (currentTime : nat) (r : t) : option (option Agreement * t) :=
  match rounds with
  | 0 => None
  | S rounds' =>
      match verify currentTime (rnd 0) r with
      | Respond selected => Some (selected, r)
      | SelectNext r' =>
          Selection_within rounds' (λ n, rnd (S n)) currentTime r'
      end
  end.

(** The registry invariant: the counter is the length of the active
    list, the state of an agreement names the list that holds it, and
    no agreement identifier occurs twice. *)
Definition wf (r : t) : Prop :=
  activeGroupsCounter r = length (activeGroupList r)
  ∧ Forall (λ a, state a = Active) (activeGroupList r)
  ∧ Forall (λ a, state a = Expired) (expiredGroupList r)
  ∧ NoDup (id <$> (activeGroupList r ++ expiredGroupList r)).

#[global] Instance wf_dec r : Decision (wf r).
Proof. unfold wf. apply _. Defined.

Definition empty (threshold : nat) : t :=
  {| activeGroupList := []; activeGroupsCounter := 0;
     activeGroupsThreshold := threshold; expiredGroupList := [] |}.

End Registry.

(** ** Consistent fault sets

    The two fault sets of a group share no index and hold indices of
    [members] only. *)
Definition fault_sets_consistent (G : Group.t) : Prop :=
  Group.inactiveMembers G ## Group.disqualifiedMembers G
  ∧ (∀ m, m ∈ Group.inactiveMembers G → m ∈ Group.members G)
  ∧ (∀ m, m ∈ Group.disqualifiedMembers G → m ∈ Group.members G).

(** ** libp2p provider: peer lists and bootstrap addresses

    The peer identifiers, multiaddresses and peer infos are those of the
    libp2p libraries; so are the functions that print and parse them,
    which are taken as they come. *)

Section libp2p.
Context {ID Multiaddr PeerInfo error : Type} `{EqDecision ID}.
(** [peer.ID.String] *)
Context (ID_String : ID → string).
(** [ma.NewMultiaddr] *)
Context (NewMultiaddr : string → Multiaddr + error).
(** [peerstore.InfoFromP2pAddr] *)
Context (InfoFromP2pAddr : Multiaddr → PeerInfo + error).
(** [Multiaddr.Encapsulate] *)
Context (Encapsulate : Multiaddr → Multiaddr → Multiaddr).
(** [fmt.Sprintf("/tcp/%d", port)] *)
Context (tcp_port : Z → string).

(** The loop of [Peers] from a given tail of the peerstore's identifiers
    on, with the strings appended so far. *)
Fixpoint Peers_range (identity_id : ID) (peersIDSlice : list ID)
    (peers : list string) : list string :=
  match peersIDSlice with
  | [] => peers
  | peer :: rest =>
      if decide (peer = identity_id)
      then Peers_range identity_id rest peers
      else Peers_range identity_id rest (peers ++ [ID_String peer])
  end.

(** [func (p *provider) Peers() []string], given the identifiers that
    [p.host.Peerstore().Peers()] returns. *)
Definition Peers (identity_id : ID) (peersIDSlice : list ID) : list string :=
  Peers_range identity_id peersIDSlice [].

Fixpoint extractMultiAddrFromPeers_range (peers : list string)
    (peerInfos : list PeerInfo) : list PeerInfo + error :=
  match peers with
  | [] => inl peerInfos
  | peer :: rest =>
      match NewMultiaddr peer with
      | inr err => inr err
      | inl ipfsaddr =>
          match InfoFromP2pAddr ipfsaddr with
          | inr err => inr err
          | inl peerInfo =>
              extractMultiAddrFromPeers_range rest (peerInfos ++ [peerInfo])
          end
      end
  end.

Definition extractMultiAddrFromPeers (peers : list string)
  : list PeerInfo + error :=
  extractMultiAddrFromPeers_range peers [].

Fixpoint getListenAddrs_range (port : Z) (ia addrs : list Multiaddr)
  : list Multiaddr + error :=
  match ia with
  | [] => inl addrs
  | addr :: rest =>
      match NewMultiaddr (tcp_port port) with
      | inr err => inr err
      | inl portAddr =>
          getListenAddrs_range port rest (addrs ++ [Encapsulate addr portAddr])
      end
  end.

(** [getListenAddrs], given what [addrutil.InterfaceAddresses()]
    returns. *)
Definition getListenAddrs (InterfaceAddresses : list Multiaddr + error)
    (port : Z) : list Multiaddr + error :=
  match InterfaceAddresses with
  | inr err => inr err
  | inl ia => getListenAddrs_range port ia []
  end.

End libp2p.

(** * Properties of the member filters *)

(** Scenario 1: five members, member 3 silent in the phase. *)
Example flush_scenario_1 :
  inactive_phase 1 0 [2; 4; 5] {[0 := example_group]}
  = Some (tt, {[0 := Group.mk [1; 2; 3; 4; 5] {[3]} ∅]}).
Proof. vm_compute. reflexivity. Qed.

Section go_facts.
Context {S : Type}.

Lemma for_range_ext {A} (l : list A) (f g : A → Go S unit) :
  (∀ x h, f x h = g x h) →
  ∀ h, for_range l f h = for_range l g h.
Proof.
  intros Hfg. induction l as [|x l IH]; intros h; simpl; [done|].
  unfold go_bind. rewrite Hfg. destruct (g x h) as [[[] h']|]; auto.
Qed.

Lemma for_range_app {A} (l1 l2 : list A) (f : A → Go S unit) h :
  for_range (l1 ++ l2) f h
  = go_bind (for_range l1 f) (λ _, for_range l2 f) h.
Proof.
  revert h. induction l1 as [|x l1 IH]; intros h; simpl; [done|].
  unfold go_bind in *. destruct (f x h) as [[[] h']|]; auto.
Qed.
End go_facts.

Section filter_facts.
Implicit Types (h : heap) (p : loc) (G : Group.t).
Implicit Types (id m s : MemberIndex) (marks : list MemberIndex).

Lemma range_finds_true (marked : list MemberIndex) id :
  range_finds marked id = true ↔ id ∈ marked.
Proof.
  induction marked as [|a marked IH]; simpl.
  - split; [done|]. by intros ?%elem_of_nil.
  - rewrite elem_of_cons. case_decide; naive_solver.
Qed.

Lemma isActive_true mf id :
  isActive mf id = true ↔ id = imf_selfMemberID mf ∨ id ∈ phaseActiveMembers mf.
Proof.
  unfold isActive. case_decide; [naive_solver|].
  rewrite range_finds_true. naive_solver.
Qed.

Lemma isActive_false mf id :
  isActive mf id = false ↔ id ≠ imf_selfMemberID mf ∧ id ∉ phaseActiveMembers mf.
Proof.
  rewrite <-not_true_iff_false, isActive_true. tauto.
Qed.

Lemma isDisqualified_true mf id :
  isDisqualified mf id = true
  ↔ id ≠ dmf_selfMemberID mf ∧ id ∈ phaseDisqualifiedMembers mf.
Proof.
  unfold isDisqualified. case_decide; [naive_solver|].
  rewrite range_finds_true. naive_solver.
Qed.

Lemma elem_of_OperatingMemberIDs G m :
  m ∈ Group.OperatingMemberIDs G
  ↔ m ∈ Group.members G ∧ (m ∉ Group.inactiveMembers G) ∧ (m ∉ Group.disqualifiedMembers G).
Proof. unfold Group.OperatingMemberIDs. rewrite list_elem_of_filter. tauto. Qed.

Lemma call_MarkMemberAsInactive_Some p id h G :
  h !! p = Some G →
  call_MarkMemberAsInactive p id h
  = Some (tt, <[p := Group.MarkMemberAsInactive id G]> h).
Proof.
  intros HG. unfold call_MarkMemberAsInactive, go_bind, deref, assign.
  by rewrite HG.
Qed.

Lemma call_MarkMemberAsDisqualified_Some p id h G :
  h !! p = Some G →
  call_MarkMemberAsDisqualified p id h
  = Some (tt, <[p := Group.MarkMemberAsDisqualified id G]> h).
Proof.
  intros HG. unfold call_MarkMemberAsDisqualified, go_bind, deref, assign.
  by rewrite HG.
Qed.

(** The loop of [FlushInactiveMembers] over any list of indices: the
    group behind [p] is rewritten once per inactive index. *)
Lemma inactive_loop mf (l : list MemberIndex) : ∀ h G,
  h !! imf_group mf = Some G →
  ∃ G', for_range l (λ operatingMemberID,
          if negb (isActive mf operatingMemberID)
          then call_MarkMemberAsInactive (imf_group mf) operatingMemberID
          else go_ret tt) h = Some (tt, <[imf_group mf := G']> h)
    ∧ Group.members G' = Group.members G
    ∧ Group.disqualifiedMembers G' = Group.disqualifiedMembers G
    ∧ Group.inactiveMembers G'
      = Group.inactiveMembers G ∪ list_to_set (filter (λ m, isActive mf m = false) l).
Proof.
  induction l as [|x l IH]; intros h G HG; simpl.
  - exists G. rewrite insert_id by done. split_and!; try done. set_solver.
  - unfold go_bind at 1. destruct (isActive mf x) eqn:Hx; simpl.
    + destruct (IH h G HG) as (G' & -> & ? & ? & HG').
      exists G'. split_and!; try done.
      rewrite HG', filter_cons_False; [done|]. by rewrite Hx.
    + rewrite (call_MarkMemberAsInactive_Some _ _ _ _ HG).
      destruct (IH (<[imf_group mf := Group.MarkMemberAsInactive x G]> h)
                  (Group.MarkMemberAsInactive x G)) as (G' & -> & ? & ? & HG').
      { by rewrite lookup_insert_eq. }
      exists G'. rewrite insert_insert_eq. split_and!; try done.
      rewrite HG', filter_cons_True by done. simpl. set_solver.
Qed.

Lemma disqualified_loop mf (l : list MemberIndex) : ∀ h G,
  h !! dmf_group mf = Some G →
  ∃ G', for_range l (λ operatingMemberID,
          if isDisqualified mf operatingMemberID
          then call_MarkMemberAsDisqualified (dmf_group mf) operatingMemberID
          else go_ret tt) h = Some (tt, <[dmf_group mf := G']> h)
    ∧ Group.members G' = Group.members G
    ∧ Group.inactiveMembers G' = Group.inactiveMembers G
    ∧ Group.disqualifiedMembers G'
      = Group.disqualifiedMembers G
        ∪ list_to_set (filter (λ m, isDisqualified mf m = true) l).
Proof.
  induction l as [|x l IH]; intros h G HG; simpl.
  - exists G. rewrite insert_id by done. split_and!; try done. set_solver.
  - unfold go_bind at 1. destruct (isDisqualified mf x) eqn:Hx; simpl.
    + rewrite (call_MarkMemberAsDisqualified_Some _ _ _ _ HG).
      destruct (IH (<[dmf_group mf := Group.MarkMemberAsDisqualified x G]> h)
                  (Group.MarkMemberAsDisqualified x G)) as (G' & -> & ? & ? & HG').
      { by rewrite lookup_insert_eq. }
      exists G'. rewrite insert_insert_eq. split_and!; try done.
      rewrite HG', filter_cons_True by done. simpl. set_solver.
    + destruct (IH h G HG) as (G' & -> & ? & ? & HG').
      exists G'. split_and!; try done.
      rewrite HG', filter_cons_False; [done|]. by rewrite Hx.
Qed.

Lemma FlushInactiveMembers_Some mf h G :
  h !! imf_group mf = Some G →
  ∃ G', FlushInactiveMembers mf h = Some (tt, <[imf_group mf := G']> h)
    ∧ Group.members G' = Group.members G
    ∧ Group.disqualifiedMembers G' = Group.disqualifiedMembers G
    ∧ Group.inactiveMembers G'
      = Group.inactiveMembers G
        ∪ list_to_set (filter (λ m, isActive mf m = false) (Group.OperatingMemberIDs G)).
Proof.
  intros HG. unfold FlushInactiveMembers, call_OperatingMemberIDs.
  unfold go_bind at 1 2. unfold deref. rewrite HG. simpl.
  by apply inactive_loop.
Qed.

Lemma FlushDisqualifiedMembers_Some mf h G :
  h !! dmf_group mf = Some G →
  ∃ G', FlushDisqualifiedMembers mf h = Some (tt, <[dmf_group mf := G']> h)
    ∧ Group.members G' = Group.members G
    ∧ Group.inactiveMembers G' = Group.inactiveMembers G
    ∧ Group.disqualifiedMembers G'
      = Group.disqualifiedMembers G
        ∪ list_to_set (filter (λ m, isDisqualified mf m = true)
                         (Group.OperatingMemberIDs G)).
Proof.
  intros HG. unfold FlushDisqualifiedMembers, call_OperatingMemberIDs.
  unfold go_bind at 1 2. unfold deref. rewrite HG. simpl.
  by apply disqualified_loop.
Qed.

Lemma mark_active_all_Some marks : ∀ mf h,
  mark_active_all marks mf h
  = Some ({| imf_selfMemberID := imf_selfMemberID mf;
             imf_group := imf_group mf;
             phaseActiveMembers := phaseActiveMembers mf ++ marks |}, h).
Proof.
  induction marks as [|id marks IH]; intros [s p l] h; simpl.
  - unfold go_ret. by rewrite app_nil_r.
  - unfold go_bind, MarkMemberAsActive, go_ret. rewrite IH. simpl.
    by rewrite <-app_assoc.
Qed.

Lemma mark_disqualified_all_Some marks : ∀ mf h,
  mark_disqualified_all marks mf h
  = Some ({| dmf_selfMemberID := dmf_selfMemberID mf;
             dmf_group := dmf_group mf;
             phaseDisqualifiedMembers := phaseDisqualifiedMembers mf ++ marks |}, h).
Proof.
  induction marks as [|id marks IH]; intros [s p l] h; simpl.
  - unfold go_ret. by rewrite app_nil_r.
  - unfold go_bind, MarkMemberAsDisqualified, go_ret. rewrite IH. simpl.
    by rewrite <-app_assoc.
Qed.

Lemma inactive_phase_Some s p marks h G :
  h !! p = Some G →
  ∃ G', inactive_phase s p marks h = Some (tt, <[p := G']> h)
    ∧ Group.members G' = Group.members G
    ∧ Group.disqualifiedMembers G' = Group.disqualifiedMembers G
    ∧ ∀ m, m ∈ Group.inactiveMembers G'
           ↔ m ∈ Group.inactiveMembers G
             ∨ (m ∈ Group.OperatingMemberIDs G ∧ m ≠ s ∧ m ∉ marks).
Proof.
  intros HG. unfold inactive_phase, go_bind.
  rewrite mark_active_all_Some. simpl.
  set (mf := mkInactiveMemberFilter s p marks).
  destruct (FlushInactiveMembers_Some mf h G HG) as (G' & -> & ? & ? & HG').
  exists G'. split_and!; try done. intros m.
  rewrite HG', elem_of_union, elem_of_list_to_set, list_elem_of_filter.
  rewrite isActive_false. simpl. tauto.
Qed.

Lemma disqualified_phase_Some s p marks h G :
  h !! p = Some G →
  ∃ G', disqualified_phase s p marks h = Some (tt, <[p := G']> h)
    ∧ Group.members G' = Group.members G
    ∧ Group.inactiveMembers G' = Group.inactiveMembers G
    ∧ ∀ m, m ∈ Group.disqualifiedMembers G'
           ↔ m ∈ Group.disqualifiedMembers G
             ∨ (m ∈ Group.OperatingMemberIDs G ∧ m ≠ s ∧ m ∈ marks).
Proof.
  intros HG. unfold disqualified_phase, go_bind.
  rewrite mark_disqualified_all_Some. simpl.
  set (mf := mkDisqualifiedMemberFilter s p marks).
  destruct (FlushDisqualifiedMembers_Some mf h G HG) as (G' & -> & ? & ? & HG').
  exists G'. split_and!; try done. intros m.
  rewrite HG', elem_of_union, elem_of_list_to_set, list_elem_of_filter.
  rewrite isDisqualified_true. simpl. tauto.
Qed.

End filter_facts.

Section filter_claims.
Implicit Types (h : heap) (p : loc) (G : Group.t).
Implicit Types (id m s : MemberIndex) (marks : list MemberIndex).

(** C1.  For a group [G] behind [p] and a filter owned by [s] over it:
    after [FlushInactiveMembers] the inactive set of the group has lost
    nothing and has gained exactly the indices that were operating in
    [G] at flush time, differ from [s] and were never passed to
    [MarkMemberAsActive]; after [FlushDisqualifiedMembers] the
    disqualified set has lost nothing and has gained exactly the indices
    that were operating in [G], differ from [s] and were passed to
    [MarkMemberAsDisqualified] at least once. *)
Theorem flush_gains_exactly h p G s marks :
  h !! p = Some G →
  (∃ G', inactive_phase s p marks h = Some (tt, <[p := G']> h)
     ∧ Group.inactiveMembers G ⊆ Group.inactiveMembers G'
     ∧ ∀ m, m ∈ Group.inactiveMembers G' ∖ Group.inactiveMembers G
            ↔ m ∈ Group.OperatingMemberIDs G ∧ m ≠ s ∧ m ∉ marks)
  ∧ (∃ G', disqualified_phase s p marks h = Some (tt, <[p := G']> h)
       ∧ Group.disqualifiedMembers G ⊆ Group.disqualifiedMembers G'
       ∧ ∀ m, m ∈ Group.disqualifiedMembers G' ∖ Group.disqualifiedMembers G
              ↔ m ∈ Group.OperatingMemberIDs G ∧ m ≠ s ∧ m ∈ marks).
Proof.
  intros HG. split.
  - destruct (inactive_phase_Some s p marks h G HG) as (G' & Hrun & _ & _ & Hin).
    exists G'. split_and!; [done| |].
    + intros m ?. apply Hin. by left.
    + intros m. rewrite elem_of_difference, Hin, elem_of_OperatingMemberIDs.
      tauto.
  - destruct (disqualified_phase_Some s p marks h G HG)
      as (G' & Hrun & _ & _ & Hin).
    exists G'. split_and!; [done| |].
    + intros m ?. apply Hin. by left.
    + intros m. rewrite elem_of_difference, Hin, elem_of_OperatingMemberIDs.
      tauto.
Qed.

(** C2, as the specification states it, fails: member 3 of a group of
    five is already inactive; observer 1 marks 3 as disqualified and
    flushes; the group is left as it was and 3 is not disqualified. *)
Lemma inactive_member_not_disqualified_by_flush :
  let G := Group.mk [1; 2; 3; 4; 5] {[3]} ∅ in
  3 ∈ Group.inactiveMembers G
  ∧ disqualified_phase 1 0 [3] {[0 := G]} = Some (tt, {[0 := G]})
  ∧ 3 ∉ Group.disqualifiedMembers G.
Proof.
  simpl. split_and!; [set_solver | by vm_compute | set_solver].
Qed.

(** C2, amended.  A member [m] that is already inactive is not an
    operating member, and the flush visits operating members only:
    marking [m] as disqualified and flushing leaves [m] in the
    disqualified set exactly if it was there before, and leaves it
    inactive. *)
Theorem flush_skips_inactive_member h p G s m marks :
  h !! p = Some G →
  m ∈ Group.inactiveMembers G →
  m ∈ marks →
  ∃ G', disqualified_phase s p marks h = Some (tt, <[p := G']> h)
    ∧ (m ∈ Group.disqualifiedMembers G' ↔ m ∈ Group.disqualifiedMembers G)
    ∧ m ∈ Group.inactiveMembers G'
    ∧ m ∉ Group.OperatingMemberIDs G'.
Proof.
  intros HG Hm _.
  destruct (disqualified_phase_Some s p marks h G HG)
    as (G' & Hrun & _ & Hia & Hin).
  exists G'. split_and!; [done| | |].
  - rewrite Hin, elem_of_OperatingMemberIDs. tauto.
  - by rewrite Hia.
  - rewrite elem_of_OperatingMemberIDs, Hia. tauto.
Qed.

(** C7.  Self-exemption: a flush of the inactive filter owned by [M]
    never adds [M] to the inactive set, whatever was marked and so also
    with no mark at all; a flush of the disqualified filter owned by [M]
    never adds [M] to the disqualified set, whatever was marked, [M]
    included. *)
Theorem self_exemption h p G (M : MemberIndex) marks :
  h !! p = Some G →
  (∃ G', inactive_phase M p [] h = Some (tt, <[p := G']> h)
     ∧ (M ∈ Group.inactiveMembers G' → M ∈ Group.inactiveMembers G))
  ∧ (∃ G', inactive_phase M p marks h = Some (tt, <[p := G']> h)
       ∧ (M ∈ Group.inactiveMembers G' → M ∈ Group.inactiveMembers G))
  ∧ (∃ G', disqualified_phase M p marks h = Some (tt, <[p := G']> h)
       ∧ (M ∈ Group.disqualifiedMembers G'
          → M ∈ Group.disqualifiedMembers G)).
Proof.
  intros HG. split_and!.
  - destruct (inactive_phase_Some M p [] h G HG) as (G' & Hrun & _ & _ & Hin).
    exists G'. split; [done|]. rewrite Hin. tauto.
  - destruct (inactive_phase_Some M p marks h G HG)
      as (G' & Hrun & _ & _ & Hin).
    exists G'. split; [done|]. rewrite Hin. tauto.
  - destruct (disqualified_phase_Some M p marks h G HG)
      as (G' & Hrun & _ & _ & Hin).
    exists G'. split; [done|]. rewrite Hin. tauto.
Qed.

End filter_claims.

Section flush_runs.
Implicit Types (h : heap) (p : loc) (G : Group.t).

Lemma fault_sets_grow_refl h : fault_sets_grow h h.
Proof. intros p G HG. exists G. by split_and!. Qed.

Lemma fault_sets_grow_trans h1 h2 h3 :
  fault_sets_grow h1 h2 → fault_sets_grow h2 h3 → fault_sets_grow h1 h3.
Proof.
  intros H12 H23 p G HG.
  destruct (H12 p G HG) as (G2 & HG2 & Hm2 & Hi2 & Hd2).
  destruct (H23 p G2 HG2) as (G3 & HG3 & Hm3 & Hi3 & Hd3).
  exists G3. split_and!; [done|congruence|set_solver|set_solver].
Qed.

Lemma fault_sets_grow_insert h p G G' :
  h !! p = Some G →
  Group.members G' = Group.members G →
  Group.inactiveMembers G ⊆ Group.inactiveMembers G' →
  Group.disqualifiedMembers G ⊆ Group.disqualifiedMembers G' →
  fault_sets_grow h (<[p := G']> h).
Proof.
  intros HG Hm Hi Hd q Gq HGq. destruct (decide (q = p)) as [->|Hne].
  - exists G'. rewrite lookup_insert_eq. by simplify_eq.
  - exists Gq. rewrite lookup_insert_ne by done. by split_and!.
Qed.

Lemma run_flush_grows (c : FlushCall) h :
  is_Some (h !! flush_group c) →
  ∃ h', run_flush c h = Some (tt, h') ∧ fault_sets_grow h h'.
Proof.
  intros [G HG]. destruct c as [mf|mf]; simpl in *.
  - destruct (FlushInactiveMembers_Some mf h G HG) as (G' & -> & ? & Hd & Hi).
    eexists. split; [done|].
    eapply fault_sets_grow_insert; [done..| |]; set_solver.
  - destruct (FlushDisqualifiedMembers_Some mf h G HG)
      as (G' & -> & ? & Hi & Hd).
    eexists. split; [done|].
    eapply fault_sets_grow_insert; [done..| |]; set_solver.
Qed.

Lemma run_flushes_grows (calls : list FlushCall) : ∀ h,
  Forall (λ c, is_Some (h !! flush_group c)) calls →
  ∃ h', run_flushes calls h = Some (tt, h') ∧ fault_sets_grow h h'.
Proof.
  unfold run_flushes.
  induction calls as [|c calls IH]; intros h Hvalid; simpl.
  - exists h. split; [done|]. apply fault_sets_grow_refl.
  - apply Forall_cons in Hvalid as [Hc Hrest].
    destruct (run_flush_grows c h Hc) as (h1 & Hrun1 & Hgrow1).
    unfold go_bind. rewrite Hrun1.
    destruct (IH h1) as (h' & -> & Hgrow).
    { eapply Forall_impl; [exact Hrest|]. simpl. intros c' [G HG].
      destruct (Hgrow1 _ _ HG) as (G1 & -> & _). by eexists. }
    exists h'. split; [done|]. by eapply fault_sets_grow_trans.
Qed.

(** C8.  Monotonicity: a run of flushes of either kind, in any order and
    by any filters over groups of the heap, returns, and leaves every
    group with fault sets that contain the earlier ones; their sizes do
    not decrease. *)
Theorem flushes_monotone (calls : list FlushCall) h :
  Forall (λ c, is_Some (h !! flush_group c)) calls →
  ∃ h', run_flushes calls h = Some (tt, h')
    ∧ ∀ p G, h !! p = Some G →
        ∃ G', h' !! p = Some G'
          ∧ Group.inactiveMembers G ⊆ Group.inactiveMembers G'
          ∧ Group.disqualifiedMembers G ⊆ Group.disqualifiedMembers G'
          ∧ size (Group.inactiveMembers G) ≤ size (Group.inactiveMembers G')
          ∧ size (Group.disqualifiedMembers G)
            ≤ size (Group.disqualifiedMembers G').
Proof.
  intros Hvalid.
  destruct (run_flushes_grows calls h Hvalid) as (h' & Hrun & Hgrow).
  exists h'. split; [done|]. intros p G HG.
  destruct (Hgrow p G HG) as (G' & HG' & _ & Hi & Hd).
  exists G'. split_and!; [done..| |]; by apply subseteq_size.
Qed.

End flush_runs.

Section mark_claims.
Context `{ProtocolMessage M}.
Implicit Types (h : heap) (p : loc) (G : Group.t).
Implicit Types (id : MemberIndex) (rest marks : list MemberIndex).

Lemma isActive_ext mf1 mf2 id :
  imf_selfMemberID mf1 = imf_selfMemberID mf2 →
  (∀ x, x ∈ phaseActiveMembers mf1 ↔ x ∈ phaseActiveMembers mf2) →
  isActive mf1 id = isActive mf2 id.
Proof.
  intros Hs Hl. apply Bool.eq_true_iff_eq.
  by rewrite !isActive_true, Hs, Hl.
Qed.

Lemma isDisqualified_ext mf1 mf2 id :
  dmf_selfMemberID mf1 = dmf_selfMemberID mf2 →
  (∀ x, x ∈ phaseDisqualifiedMembers mf1 ↔ x ∈ phaseDisqualifiedMembers mf2) →
  isDisqualified mf1 id = isDisqualified mf2 id.
Proof.
  intros Hs Hl. apply Bool.eq_true_iff_eq.
  by rewrite !isDisqualified_true, Hs, Hl.
Qed.

Lemma FlushInactiveMembers_ext mf1 mf2 h :
  imf_group mf1 = imf_group mf2 →
  (∀ id, isActive mf1 id = isActive mf2 id) →
  FlushInactiveMembers mf1 h = FlushInactiveMembers mf2 h.
Proof.
  intros Hg Hact. unfold FlushInactiveMembers, go_bind. rewrite Hg.
  destruct (call_OperatingMemberIDs _ h) as [[ops h1]|]; [|done].
  apply for_range_ext. intros x h2. by rewrite Hact.
Qed.

Lemma FlushDisqualifiedMembers_ext mf1 mf2 h :
  dmf_group mf1 = dmf_group mf2 →
  (∀ id, isDisqualified mf1 id = isDisqualified mf2 id) →
  FlushDisqualifiedMembers mf1 h = FlushDisqualifiedMembers mf2 h.
Proof.
  intros Hg Hdq. unfold FlushDisqualifiedMembers, go_bind. rewrite Hg.
  destruct (call_OperatingMemberIDs _ h) as [[ops h1]|]; [|done].
  apply for_range_ext. intros x h2. by rewrite Hdq.
Qed.

(** C9.  Marking is idempotent for what a flush does: marking [id]
    twice, then marking anything else, then flushing, gives the outcome
    (the heap of groups, or the panic of a dangling group pointer) of
    marking [id] once instead, for either filter, every filter state and
    every index, also when other marks come between the two; and a mark
    returns for every index. *)
Theorem marks_idempotent id h :
  (∀ mf rest,
     (let* mf1 := MarkMemberAsActive id mf in
      let* mf2 := MarkMemberAsActive id mf1 in
      let* mf3 := mark_active_all rest mf2 in
      FlushInactiveMembers mf3) h
     = (let* mf1 := MarkMemberAsActive id mf in
        let* mf3 := mark_active_all rest mf1 in
        FlushInactiveMembers mf3) h)
  ∧ (∀ mf rest,
       (let* mf1 := MarkMemberAsDisqualified id mf in
        let* mf2 := MarkMemberAsDisqualified id mf1 in
        let* mf3 := mark_disqualified_all rest mf2 in
        FlushDisqualifiedMembers mf3) h
       = (let* mf1 := MarkMemberAsDisqualified id mf in
          let* mf3 := mark_disqualified_all rest mf1 in
          FlushDisqualifiedMembers mf3) h)
  ∧ (∀ mf between rest,
       (let* mf1 := mark_active_all (id :: between ++ id :: rest) mf in
        FlushInactiveMembers mf1) h
       = (let* mf1 := mark_active_all (id :: between ++ rest) mf in
          FlushInactiveMembers mf1) h)
  ∧ (∀ mf between rest,
       (let* mf1 := mark_disqualified_all (id :: between ++ id :: rest) mf in
        FlushDisqualifiedMembers mf1) h
       = (let* mf1 := mark_disqualified_all (id :: between ++ rest) mf in
          FlushDisqualifiedMembers mf1) h)
  ∧ (∀ mf, is_Some (MarkMemberAsActive id mf h))
  ∧ (∀ mf, is_Some (MarkMemberAsDisqualified id mf h)).
Proof.
  split_and!.
  - intros mf rest. unfold go_bind, MarkMemberAsActive, go_ret.
    rewrite !mark_active_all_Some. simpl.
    apply FlushInactiveMembers_ext; [done|]. intros x.
    apply isActive_ext; [done|]. simpl. set_solver.
  - intros mf rest. unfold go_bind, MarkMemberAsDisqualified, go_ret.
    rewrite !mark_disqualified_all_Some. simpl.
    apply FlushDisqualifiedMembers_ext; [done|]. intros x.
    apply isDisqualified_ext; [done|]. simpl. set_solver.
  - intros mf between rest. unfold go_bind.
    rewrite !mark_active_all_Some.
    apply FlushInactiveMembers_ext; [done|]. intros x.
    apply isActive_ext; [done|]. simpl. set_solver.
  - intros mf between rest. unfold go_bind.
    rewrite !mark_disqualified_all_Some.
    apply FlushDisqualifiedMembers_ext; [done|]. intros x.
    apply isDisqualified_ext; [done|]. simpl. set_solver.
  - intros mf. by eexists.
  - intros mf. by eexists.
Qed.

(** C10.  A mark changes the observation list of its own filter and
    nothing else: the heap of groups it returns is the heap it was given
    (every group with its members and both fault sets), the filter keeps
    its owner and its group, and [IsSenderAccepted] asked after any
    number of marks answers as it would have before them. *)
Theorem marks_leave_group_unchanged id h :
  (∀ mf, ∃ mf', MarkMemberAsActive id mf h = Some (mf', h)
       ∧ imf_selfMemberID mf' = imf_selfMemberID mf
       ∧ imf_group mf' = imf_group mf
       ∧ phaseActiveMembers mf' = phaseActiveMembers mf ++ [id])
  ∧ (∀ mf, ∃ mf', MarkMemberAsDisqualified id mf h = Some (mf', h)
         ∧ dmf_selfMemberID mf' = dmf_selfMemberID mf
         ∧ dmf_group mf' = dmf_group mf
         ∧ phaseDisqualifiedMembers mf'
           = phaseDisqualifiedMembers mf ++ [id])
  ∧ (∀ mf marks p (message : M),
       (let* _ := mark_active_all marks mf in IsSenderAccepted p message) h
       = IsSenderAccepted p message h)
  ∧ (∀ mf marks p (message : M),
       (let* _ := mark_disqualified_all marks mf in
        IsSenderAccepted p message) h
       = IsSenderAccepted p message h).
Proof.
  split_and!.
  - intros mf. eexists. by split_and!.
  - intros mf. eexists. by split_and!.
  - intros mf marks p message. unfold go_bind.
    by rewrite mark_active_all_Some.
  - intros mf marks p message. unfold go_bind.
    by rewrite mark_disqualified_all_Some.
Qed.

(** C6.  [IsSenderAccepted] on a group returns, leaves the heap as it
    was, and answers true exactly for an index that is in [members] and
    in neither fault set, which is to say for an operating member; for
    an index that is not in [members] it answers false. *)
Theorem IsSenderAccepted_iff_operating h p G (message : M) :
  h !! p = Some G →
  ∃ b, IsSenderAccepted p message h = Some (b, h)
    ∧ (b = true ↔ SenderID message ∈ Group.members G
                  ∧ (SenderID message ∉ Group.inactiveMembers G)
                  ∧ (SenderID message ∉ Group.disqualifiedMembers G))
    ∧ (b = true ↔ SenderID message ∈ Group.OperatingMemberIDs G)
    ∧ (SenderID message ∉ Group.members G → b = false).
Proof.
  intros HG. exists (Group.IsSenderAccepted G (SenderID message)).
  assert (Hiff : Group.IsSenderAccepted G (SenderID message) = true
                 ↔ SenderID message ∈ Group.members G
                   ∧ (SenderID message ∉ Group.inactiveMembers G)
                   ∧ (SenderID message ∉ Group.disqualifiedMembers G)).
  { unfold Group.IsSenderAccepted. rewrite bool_decide_eq_true.
    rewrite not_elem_of_union. tauto. }
  split_and!.
  - unfold IsSenderAccepted, filter_IsSenderAccepted, group_MessageFiltering.
    unfold go_bind, deref. by rewrite HG.
  - exact Hiff.
  - by rewrite Hiff, elem_of_OperatingMemberIDs.
  - intros Hnot. apply not_true_iff_false. rewrite Hiff. tauto.
Qed.

End mark_claims.

(** * Properties of group selection *)

(** Scenario 4: a group registered at 500 with timeout 100, selected at
    550 and at 601, with a threshold of zero. *)
Example selection_scenario_4a :
  let r := Registry.Registration 7 [1; 2; 3] 500 100 (Registry.empty 0) in
  fst (Registry.Selection (λ _, 0) 550 r)
  = Some (Registry.mkAgreement 7 [1; 2; 3] 500 100 Registry.Active).
Proof. reflexivity. Qed.

Example selection_scenario_4b :
  let r := Registry.Registration 7 [1; 2; 3] 500 100 (Registry.empty 0) in
  Registry.Selection (λ _, 0) 601 r
  = (None,
     Registry.mk [] 0 0
       [Registry.mkAgreement 7 [1; 2; 3] 500 100 Registry.Expired]).
Proof. reflexivity. Qed.

Section selection_facts.
Import Registry.
Implicit Types (r : Registry.t) (rnd : nat → nat) (now draw : nat).

Lemma verify_shrinks now draw r r' :
  verify now draw r = SelectNext r' →
  length (activeGroupList r') < length (activeGroupList r).
Proof.
  unfold verify. intros Hround.
  destruct (activeGroupList r !! _) as [candidate|] eqn:Hcandidate; [|done].
  apply lookup_lt_Some in Hcandidate.
  repeat case_match; simplify_eq. simpl.
  rewrite length_delete; [lia|]. by apply lookup_lt_is_Some_2.
Qed.

Lemma Selection_rounds rnd now r :
  Selection rnd now r
  = match verify now (rnd 0) r with
    | Respond selected => (selected, r)
    | SelectNext r' => Selection (λ n, rnd (S n)) now r'
    end.
Proof.
  funelim (Selection rnd now r).
  - by rewrite e.
  - by rewrite Hround.
Qed.

Lemma Selection_within_enough (rounds : nat) : ∀ rnd now r,
  length (activeGroupList r) < rounds →
  Selection_within rounds rnd now r = Some (Selection rnd now r).
Proof.
  induction rounds as [|rounds IH]; intros rnd now r Hlen; [lia|].
  simpl. rewrite (Selection_rounds rnd now r).
  destruct (verify now (rnd 0) r) as [selected|r'] eqn:Hround; [done|].
  apply IH. apply verify_shrinks in Hround. lia.
Qed.

(** What a round does, by cases on the candidate. *)
Lemma verify_cases now draw r :
  let i := draw mod length (activeGroupList r) in
  (activeGroupList r = [] ∧ verify now draw r = Respond None)
  ∨ (∃ candidate, activeGroupList r !! i = Some candidate
       ∧ verify now draw r
         = if activeGroupsCounter r <? activeGroupsThreshold r
           then Respond (Some candidate)
           else if is_expired now candidate
                then SelectNext (expire i candidate r)
                else Respond (Some candidate)).
Proof.
  intros i. unfold verify. fold i.
  destruct (activeGroupList r !! i) as [c|] eqn:Hc.
  - right. by exists c.
  - left. split; [|done].
    destruct (activeGroupList r) as [|a l] eqn:Hl; [done|].
    apply lookup_ge_None in Hc. subst i.
    pose proof (Nat.mod_upper_bound draw (length (a :: l))) as Hlt.
    simpl in *. lia.
Qed.

Lemma expire_wf i candidate r :
  wf r →
  activeGroupList r !! i = Some candidate →
  wf (expire i candidate r).
Proof.
  intros (Hcnt & Hact & Hexp & Hids) Hc.
  pose proof (lookup_lt_Some _ _ _ Hc) as Hi.
  unfold wf, expire. simpl. split_and!.
  - rewrite length_delete by (by eexists). lia.
  - by apply Forall_delete.
  - apply Forall_app. split; [done|]. by apply Forall_singleton.
  - assert (id <$> delete i (activeGroupList r)
                     ++ expiredGroupList r ++ [set_expired candidate]
            ≡ₚ id <$> activeGroupList r ++ expiredGroupList r) as ->; [|done].
    rewrite (delete_Permutation _ _ _ Hc) at 2.
    rewrite (assoc_L (++)), !fmap_app, fmap_cons. simpl.
    by rewrite <-Permutation_cons_append.
Qed.

(** With a threshold of zero and every active group past its timeout,
    selection retires them all and presents no group. *)
Lemma Selection_all_expired (n : nat) : ∀ rnd now r,
  length (activeGroupList r) = n →
  wf r →
  activeGroupsThreshold r = 0 →
  Forall (λ a, is_expired now a = true) (activeGroupList r) →
  ∃ r', Selection rnd now r = (None, r')
    ∧ activeGroupList r' = []
    ∧ activeGroupsCounter r' = 0
    ∧ wf r'
    ∧ expiredGroupList r'
      ≡ₚ expiredGroupList r ++ (set_expired <$> activeGroupList r).
Proof.
  induction n as [|n IH]; intros rnd now r Hlen Hwf Hthr Hall;
    rewrite Selection_rounds;
    destruct (verify_cases now (rnd 0) r) as [[Hnil ->]|(c & Hc & ->)].
  - exists r. pose proof Hwf as (Hcnt & _). rewrite Hnil in *.
    split_and!; [done..|]. simpl. by rewrite app_nil_r.
  - apply lookup_lt_Some in Hc. lia.
  - rewrite Hnil in Hlen. done.
  - rewrite Hthr. simpl.
    rewrite (proj1 (Forall_lookup _ _) Hall _ _ Hc).
    set (i := rnd 0 mod length (activeGroupList r)) in *.
    destruct (IH (λ k, rnd (S k)) now (expire i c r))
      as (r' & -> & Hnil & Hcnt & Hwf' & Hperm).
    + simpl. rewrite length_delete by (by eexists). lia.
    + by apply expire_wf.
    + done.
    + simpl. by apply Forall_delete.
    + exists r'. split_and!; try done.
      rewrite Hperm. simpl. rewrite <-(assoc_L (++)).
      apply Permutation_app_head. simpl.
      by rewrite (delete_Permutation _ _ _ Hc) at 2.
Qed.

End selection_facts.

Section selection_claims.
Import Registry.
Implicit Types (r : Registry.t) (rnd : nat → nat) (now draw : nat).

(** C3, as the specification states it, fails at the threshold itself.
    Two active groups, a threshold of two, both groups past their
    timeout: the counter is not below the threshold, so the first
    candidate is verified, found expired and moved to the expired list;
    only then is the counter below the threshold and the other group
    presented as it is. *)
Lemma selection_expires_at_threshold :
  let a := mkAgreement 7 [1; 2; 3] 500 100 Active in
  let b := mkAgreement 8 [4; 5; 6] 510 50 Active in
  let r := Registry.mk [a; b] 2 2 [] in
  wf r
  ∧ activeGroupsCounter r ≤ activeGroupsThreshold r
  ∧ Selection (λ _, 0) 601 r
    = (Some b, Registry.mk [b] 1 2 [mkAgreement 7 [1; 2; 3] 500 100 Expired]).
Proof.
  simpl. split_and!; [|lia|reflexivity].
  by apply (bool_decide_unpack _).
Qed.

(** C3, amended.  When the active groups counter is below the threshold
    (strictly), selection moves no agreement and flips no state, however
    far the current time is past any timeout: the registry is left as it
    was and the group presented is an element of the active list, as it
    is there; no group is presented only when that list is empty. *)
Theorem threshold_guard rnd now r :
  activeGroupsCounter r < activeGroupsThreshold r →
  ∃ selected, Selection rnd now r = (selected, r)
    ∧ match selected with
      | Some a => a ∈ activeGroupList r
      | None => activeGroupList r = []
      end.
Proof.
  intros Hlt%Nat.ltb_lt.
  destruct (verify_cases now (rnd 0) r) as [[Hnil Hv]|(c & Hc & Hv)].
  - exists None. split; [|done]. by rewrite Selection_rounds, Hv.
  - exists (Some c). split; [by rewrite Selection_rounds, Hv, Hlt|].
    by eapply list_elem_of_lookup_2.
Qed.

Lemma threshold_guard_witness :
  let a := mkAgreement 7 [1; 2; 3] 500 100 Active in
  let r := Registry.mk [a] 1 2 [] in
  activeGroupsCounter r < activeGroupsThreshold r
  ∧ ∃ selected, Selection (λ _, 0) 601 r = (selected, r)
      ∧ match selected with
        | Some a => a ∈ activeGroupList r
        | None => activeGroupList r = []
        end.
Proof.
  simpl. split; [lia|].
  apply (threshold_guard (λ _, 0) 601
           (Registry.mk [mkAgreement 7 [1; 2; 3] 500 100 Active] 1 2 [])).
  simpl. lia.
Defined.

(** C4.  A round of selection that goes on to the next candidate is an
    expiration: the candidate was at some position of the active list and
    the current time is larger than its registration time plus its
    timeout.  In a well-formed registry the round decreases the counter by
    exactly one, removes exactly that one agreement from the active list,
    appends it, with the state [Expired] and nothing else changed, to the
    expired list, keeps the threshold, and leaves the registry
    well-formed: the counter is the length of the active list, states
    match lists, and no identifier occurs twice. *)
Theorem expiration_step now draw r r' :
  wf r →
  verify now draw r = SelectNext r' →
  ∃ i candidate,
    activeGroupList r !! i = Some candidate
    ∧ registrationTime candidate + timeout candidate < now
    ∧ S (activeGroupsCounter r') = activeGroupsCounter r
    ∧ activeGroupList r' = delete i (activeGroupList r)
    ∧ activeGroupList r ≡ₚ candidate :: activeGroupList r'
    ∧ S (length (activeGroupList r')) = length (activeGroupList r)
    ∧ expiredGroupList r'
      = expiredGroupList r
        ++ [ {| id := id candidate; members := members candidate;
                registrationTime := registrationTime candidate;
                timeout := timeout candidate; state := Expired |} ]
    ∧ activeGroupsThreshold r' = activeGroupsThreshold r
    ∧ wf r'.
Proof.
  intros Hwf Hround.
  destruct (verify_cases now draw r) as [[_ Hv]|(c & Hc & Hv)];
    rewrite Hv in Hround; [done|].
  destruct (activeGroupsCounter r <? activeGroupsThreshold r); [done|].
  destruct (is_expired now c) eqn:Hexp; [|done].
  injection Hround as <-.
  set (i := draw mod length (activeGroupList r)) in *.
  pose proof (lookup_lt_Some _ _ _ Hc) as Hi.
  pose proof Hwf as (Hcnt & _).
  exists i, c. simpl. split_and!; try done.
  - by apply Nat.ltb_lt.
  - lia.
  - by apply delete_Permutation.
  - rewrite length_delete by (by eexists). lia.
  - by apply expire_wf.
Qed.

Lemma expiration_step_witness :
  let a := mkAgreement 7 [1; 2; 3] 500 100 Active in
  let r := Registry.mk [a] 1 0 [] in
  let r' := Registry.mk [] 0 0 [mkAgreement 7 [1; 2; 3] 500 100 Expired] in
  wf r ∧ verify 601 0 r = SelectNext r'
  ∧ ∃ i candidate,
      activeGroupList r !! i = Some candidate
      ∧ registrationTime candidate + timeout candidate < 601
      ∧ S (activeGroupsCounter r') = activeGroupsCounter r
      ∧ activeGroupList r' = delete i (activeGroupList r)
      ∧ activeGroupList r ≡ₚ candidate :: activeGroupList r'
      ∧ S (length (activeGroupList r')) = length (activeGroupList r)
      ∧ expiredGroupList r'
        = expiredGroupList r
          ++ [ {| id := id candidate; members := members candidate;
                  registrationTime := registrationTime candidate;
                  timeout := timeout candidate; state := Expired |} ]
      ∧ activeGroupsThreshold r' = activeGroupsThreshold r
      ∧ wf r'.
Proof.
  assert (Hwf : wf (Registry.mk [mkAgreement 7 [1; 2; 3] 500 100 Active] 1 0 [])).
  { by apply (bool_decide_unpack _). }
  simpl. split_and!; [exact Hwf|reflexivity|].
  exact (expiration_step 601 0
           (Registry.mk [mkAgreement 7 [1; 2; 3] 500 100 Active] 1 0 [])
           (Registry.mk [] 0 0 [mkAgreement 7 [1; 2; 3] 500 100 Expired])
           Hwf eq_refl).
Defined.

(** C5, as the specification states it, fails in one part: the loop does
    not return once the size of the active list has reached the
    threshold.  Two active groups, a threshold of two, the first group
    past its timeout: the counter is not below the threshold, so the
    round does not respond, it retires the first group; only the next
    round, with one group left, responds. *)
Lemma round_at_threshold_goes_on :
  let a := mkAgreement 7 [1; 2; 3] 500 100 Active in
  let b := mkAgreement 8 [4; 5; 6] 590 100 Active in
  let r := Registry.mk [a; b] 2 2 [] in
  let r1 := Registry.mk [b] 1 2 [mkAgreement 7 [1; 2; 3] 500 100 Expired] in
  wf r
  ∧ length (activeGroupList r) = activeGroupsThreshold r
  ∧ verify 601 0 r = SelectNext r1
  ∧ Selection (λ _, 0) 601 r = (Some b, r1).
Proof.
  simpl. split_and!; [|done|reflexivity|reflexivity].
  by apply (bool_decide_unpack _).
Qed.

Lemma Selection_no_group_only_if_none_left now (n : nat) : ∀ rnd r,
  length (activeGroupList r) = n →
  (Selection rnd now r).1 = NoEligibleGroup →
  activeGroupList (Selection rnd now r).2 = [].
Proof.
  induction (lt_wf n) as [n _ IH]. intros rnd r <-.
  rewrite Selection_rounds.
  destruct (verify now (rnd 0) r) as [selected|r1] eqn:Hround.
  - simpl. intros ->.
    destruct (verify_cases now (rnd 0) r) as [[Hnil _]|(c & _ & Hv)]; [done|].
    rewrite Hv in Hround. repeat case_match; by simplify_eq.
  - eapply IH; [|done]. by eapply verify_shrinks.
Qed.

(** C5, amended.  Selection terminates for every registry, every current
    time and every sequence of random numbers: it is the loop run for at
    most one round more than the active list is long.  A round either
    responds or strictly shrinks the active list.  Once the counter, which
    is the size of the active list in a registry that keeps the two in
    step, is below the threshold, a round responds.  On an empty active
    list selection responds with the explicit [NoEligibleGroup] outcome
    and leaves the registry as it is; with a threshold of zero and every
    active group past its timeout it retires all of them and responds
    with [NoEligibleGroup]; and it responds so only when it leaves no
    active group.  The outcome is a response like any other: the loop
    neither goes on nor fails. *)
Theorem Selection_terminates rnd now r :
  Selection_within (S (length (activeGroupList r))) rnd now r
  = Some (Selection rnd now r)
  ∧ (∀ draw r', verify now draw r = SelectNext r' →
       length (activeGroupList r') < length (activeGroupList r))
  ∧ (activeGroupsCounter r < activeGroupsThreshold r →
       ∀ draw, ∃ selected, verify now draw r = Respond selected)
  ∧ (activeGroupsCounter r = length (activeGroupList r) →
     length (activeGroupList r) < activeGroupsThreshold r →
       ∀ draw, ∃ selected, verify now draw r = Respond selected)
  ∧ (activeGroupList r = [] → Selection rnd now r = (NoEligibleGroup, r))
  ∧ (wf r →
     activeGroupsThreshold r = 0 →
     Forall (λ a, registrationTime a + timeout a < now) (activeGroupList r) →
     ∃ r', Selection rnd now r = (NoEligibleGroup, r')
       ∧ activeGroupList r' = []
       ∧ activeGroupsCounter r' = 0
       ∧ wf r')
  ∧ ((Selection rnd now r).1 = NoEligibleGroup →
     activeGroupList (Selection rnd now r).2 = []).
Proof.
  assert (Hbelow : activeGroupsCounter r < activeGroupsThreshold r →
            ∀ draw, ∃ selected, verify now draw r = Respond selected).
  { intros Hlt%Nat.ltb_lt draw.
    destruct (verify_cases now draw r) as [[_ ->]|(c & _ & ->)];
      [by eexists|].
    rewrite Hlt. by eexists. }
  split_and!.
  - apply Selection_within_enough. lia.
  - intros draw r'. apply verify_shrinks.
  - exact Hbelow.
  - intros Hcnt Hlt. apply Hbelow. lia.
  - intros Hnil. rewrite Selection_rounds.
    destruct (verify_cases now (rnd 0) r) as [[_ ->]|(c & Hc & _)]; [done|].
    by rewrite Hnil in Hc.
  - intros Hwf Hthr Hall.
    destruct (Selection_all_expired (length (activeGroupList r)) rnd now r)
      as (r' & ? & ? & ? & ? & _); try done.
    + eapply Forall_impl; [exact Hall|]. intros a Ha. by apply Nat.ltb_lt.
    + by exists r'.
  - by eapply Selection_no_group_only_if_none_left.
Qed.

End selection_claims.

(** * The theorems at work on the five-member group of the scenarios *)

Lemma flush_gains_exactly_witness :
  ({[0 := example_group]} : gmap nat Group.t) !! 0 = Some example_group
  ∧ (∃ G', inactive_phase 1 0 [2; 4; 5] {[0 := example_group]}
           = Some (tt, <[0 := G']> {[0 := example_group]})
       ∧ Group.inactiveMembers example_group ⊆ Group.inactiveMembers G'
       ∧ ∀ m, m ∈ Group.inactiveMembers G' ∖ Group.inactiveMembers example_group
              ↔ m ∈ Group.OperatingMemberIDs example_group
                ∧ m ≠ 1 ∧ m ∉ [2; 4; 5])
  ∧ (∃ G', disqualified_phase 1 0 [2; 4; 5] {[0 := example_group]}
           = Some (tt, <[0 := G']> {[0 := example_group]})
       ∧ Group.disqualifiedMembers example_group ⊆ Group.disqualifiedMembers G'
       ∧ ∀ m, m ∈ Group.disqualifiedMembers G'
                  ∖ Group.disqualifiedMembers example_group
              ↔ m ∈ Group.OperatingMemberIDs example_group
                ∧ m ≠ 1 ∧ m ∈ [2; 4; 5]).
Proof.
  split; [reflexivity|].
  apply (flush_gains_exactly {[0 := example_group]} 0 example_group 1 [2; 4; 5]).
  reflexivity.
Defined.

Lemma flush_skips_inactive_member_witness :
  let G := Group.mk [1; 2; 3; 4; 5] {[3]} ∅ in
  ({[0 := G]} : gmap nat Group.t) !! 0 = Some G
  ∧ 3 ∈ Group.inactiveMembers G
  ∧ 3 ∈ [3]
  ∧ ∃ G', disqualified_phase 1 0 [3] {[0 := G]} = Some (tt, <[0 := G']> {[0 := G]})
      ∧ (3 ∈ Group.disqualifiedMembers G' ↔ 3 ∈ Group.disqualifiedMembers G)
      ∧ 3 ∈ Group.inactiveMembers G'
      ∧ 3 ∉ Group.OperatingMemberIDs G'.
Proof.
  assert (H3 : 3 ∈ Group.inactiveMembers (Group.mk [1; 2; 3; 4; 5] {[3]} ∅)).
  { simpl. by apply elem_of_singleton_2. }
  assert (Hm : 3 ∈ [3]) by apply list_elem_of_here.
  simpl. split_and!; [reflexivity|exact H3|exact Hm|].
  exact (flush_skips_inactive_member
           {[0 := Group.mk [1; 2; 3; 4; 5] {[3]} ∅]} 0
           (Group.mk [1; 2; 3; 4; 5] {[3]} ∅) 1 3 [3] eq_refl H3 Hm).
Defined.

Lemma self_exemption_witness :
  ({[0 := example_group]} : gmap nat Group.t) !! 0 = Some example_group
  ∧ (∃ G', inactive_phase 1 0 [] {[0 := example_group]}
           = Some (tt, <[0 := G']> {[0 := example_group]})
       ∧ (1 ∈ Group.inactiveMembers G'
          → 1 ∈ Group.inactiveMembers example_group))
  ∧ (∃ G', inactive_phase 1 0 [2; 1] {[0 := example_group]}
           = Some (tt, <[0 := G']> {[0 := example_group]})
       ∧ (1 ∈ Group.inactiveMembers G'
          → 1 ∈ Group.inactiveMembers example_group))
  ∧ (∃ G', disqualified_phase 1 0 [2; 1] {[0 := example_group]}
           = Some (tt, <[0 := G']> {[0 := example_group]})
       ∧ (1 ∈ Group.disqualifiedMembers G'
          → 1 ∈ Group.disqualifiedMembers example_group)).
Proof.
  split; [reflexivity|].
  apply (self_exemption {[0 := example_group]} 0 example_group 1 [2; 1]).
  reflexivity.
Defined.

Lemma flushes_monotone_witness :
  let calls := [ CallFlushInactive (mkInactiveMemberFilter 1 0 [2; 4; 5]);
                 CallFlushDisqualified (mkDisqualifiedMemberFilter 1 0 [2]) ] in
  let h : gmap nat Group.t := {[0 := example_group]} in
  Forall (λ c, is_Some (h !! flush_group c)) calls
  ∧ ∃ h', run_flushes calls h = Some (tt, h')
      ∧ ∀ p G, h !! p = Some G →
          ∃ G', h' !! p = Some G'
            ∧ Group.inactiveMembers G ⊆ Group.inactiveMembers G'
            ∧ Group.disqualifiedMembers G ⊆ Group.disqualifiedMembers G'
            ∧ size (Group.inactiveMembers G) ≤ size (Group.inactiveMembers G')
            ∧ size (Group.disqualifiedMembers G)
              ≤ size (Group.disqualifiedMembers G').
Proof.
  assert (Hvalid :
    Forall (λ c, is_Some (({[0 := example_group]} : gmap nat Group.t)
                            !! flush_group c))
      [ CallFlushInactive (mkInactiveMemberFilter 1 0 [2; 4; 5]);
        CallFlushDisqualified (mkDisqualifiedMemberFilter 1 0 [2]) ]).
  { repeat (apply Forall_cons_2; [exists example_group; reflexivity|]).
    apply Forall_nil_2. }
  simpl. split; [exact Hvalid|].
  exact (flushes_monotone _ _ Hvalid).
Defined.

Lemma IsSenderAccepted_iff_operating_witness :
  let h : gmap nat Group.t := {[0 := example_group]} in
  let message := mkBareMessage 9 in
  h !! 0 = Some example_group
  ∧ ∃ b, IsSenderAccepted 0 message h = Some (b, h)
      ∧ (b = true ↔ SenderID message ∈ Group.members example_group
                    ∧ (SenderID message ∉ Group.inactiveMembers example_group)
                    ∧ (SenderID message
                         ∉ Group.disqualifiedMembers example_group))
      ∧ (b = true ↔ SenderID message ∈ Group.OperatingMemberIDs example_group)
      ∧ (SenderID message ∉ Group.members example_group → b = false).
Proof.
  simpl. split; [reflexivity|].
  exact (IsSenderAccepted_iff_operating
           ({[0 := example_group]} : gmap nat Group.t) 0 example_group
           (mkBareMessage 9) eq_refl).
Defined.

(** * Further properties of the member filters *)

Section flush_more.
Context `{ProtocolMessage M}.
Implicit Types (h : heap) (p : loc) (G : Group.t).
Implicit Types (id m s : MemberIndex) (marks : list MemberIndex).

Lemma filter_ext_in {A} (P Q : A → Prop)
    `{∀ x, Decision (P x)} `{∀ x, Decision (Q x)} (l : list A) :
  (∀ x, x ∈ l → P x ↔ Q x) → filter P l = filter Q l.
Proof.
  induction l as [|a l IH]; intros HPQ; [done|].
  rewrite !filter_cons.
  assert (P a ↔ Q a) as Ha by (apply HPQ; left).
  rewrite IH by (intros x Hx; apply HPQ; by right).
  destruct (decide (P a)), (decide (Q a)); tauto.
Qed.

Lemma for_range_ext_in {S A} (l : list A) (f g : A → Go S unit) :
  (∀ x st, x ∈ l → f x st = g x st) →
  ∀ st, for_range l f st = for_range l g st.
Proof.
  induction l as [|x l IH]; intros Hfg st; simpl; [done|].
  unfold go_bind. rewrite Hfg by left.
  destruct (g x st) as [[[] st']|]; [|done].
  apply IH. intros y st2 Hy. apply Hfg. by right.
Qed.

Lemma Group_eq G G' :
  Group.members G' = Group.members G →
  Group.inactiveMembers G' = Group.inactiveMembers G →
  Group.disqualifiedMembers G' = Group.disqualifiedMembers G →
  G' = G.
Proof. destruct G, G'. simpl. by intros -> -> ->. Qed.

Lemma FlushInactiveMembers_keeps mf h G :
  h !! imf_group mf = Some G →
  ∃ G', FlushInactiveMembers mf h = Some (tt, <[imf_group mf := G']> h)
    ∧ Group.OperatingMemberIDs G'
      = filter (λ m, m = imf_selfMemberID mf ∨ m ∈ phaseActiveMembers mf)
          (Group.OperatingMemberIDs G).
Proof.
  intros HG.
  destruct (FlushInactiveMembers_Some mf h G HG) as (G' & Hrun & Hm & Hd & Hi).
  exists G'. split; [done|].
  unfold Group.OperatingMemberIDs. rewrite list_filter_filter, Hm, Hd.
  apply filter_ext_in. intros x Hx.
  rewrite Hi, not_elem_of_union, elem_of_list_to_set, list_elem_of_filter.
  rewrite elem_of_OperatingMemberIDs, <-isActive_true.
  destruct (isActive mf x); naive_solver.
Qed.

Lemma FlushDisqualifiedMembers_keeps mf h G :
  h !! dmf_group mf = Some G →
  ∃ G', FlushDisqualifiedMembers mf h = Some (tt, <[dmf_group mf := G']> h)
    ∧ Group.OperatingMemberIDs G'
      = filter (λ m, ¬ (m ≠ dmf_selfMemberID mf
                        ∧ m ∈ phaseDisqualifiedMembers mf))
          (Group.OperatingMemberIDs G).
Proof.
  intros HG.
  destruct (FlushDisqualifiedMembers_Some mf h G HG)
    as (G' & Hrun & Hm & Hi & Hd).
  exists G'. split; [done|].
  unfold Group.OperatingMemberIDs. rewrite list_filter_filter, Hm, Hi.
  apply filter_ext_in. intros x Hx.
  rewrite Hd, not_elem_of_union, elem_of_list_to_set, list_elem_of_filter.
  rewrite elem_of_OperatingMemberIDs, <-isDisqualified_true.
  destruct (isDisqualified mf x); naive_solver.
Qed.

(** The members still operating after [FlushInactiveMembers] are the
    members that were operating before it and are the owner of the filter
    or were marked active, in the order of [members]. *)
Theorem FlushInactiveMembers_operating mf h G :
  h !! imf_group mf = Some G →
  ∃ G', FlushInactiveMembers mf h = Some (tt, <[imf_group mf := G']> h)
    ∧ Group.OperatingMemberIDs G'
      = filter (λ m, m = imf_selfMemberID mf ∨ m ∈ phaseActiveMembers mf)
          (Group.OperatingMemberIDs G).
Proof. apply FlushInactiveMembers_keeps. Qed.

(** The members still operating after [FlushDisqualifiedMembers] are the
    members that were operating before it, without those that are not the
    owner of the filter and were marked disqualified. *)
Theorem FlushDisqualifiedMembers_operating mf h G :
  h !! dmf_group mf = Some G →
  ∃ G', FlushDisqualifiedMembers mf h = Some (tt, <[dmf_group mf := G']> h)
    ∧ Group.OperatingMemberIDs G'
      = filter (λ m, ¬ (m ≠ dmf_selfMemberID mf
                        ∧ m ∈ phaseDisqualifiedMembers mf))
          (Group.OperatingMemberIDs G).
Proof. apply FlushDisqualifiedMembers_keeps. Qed.

(** A second flush of the same filter changes nothing: flushing twice is
    flushing once, for either filter (with a dangling group pointer both
    panic). *)
Theorem flush_twice h :
  (∀ mf, (let* _ := FlushInactiveMembers mf in FlushInactiveMembers mf) h
         = FlushInactiveMembers mf h)
  ∧ (∀ mf, (let* _ := FlushDisqualifiedMembers mf in
            FlushDisqualifiedMembers mf) h
           = FlushDisqualifiedMembers mf h).
Proof.
  split; intros mf; unfold go_bind at 1.
  - destruct (h !! imf_group mf) as [G|] eqn:HG.
    + destruct (FlushInactiveMembers_keeps mf h G HG) as (G1 & -> & Hop).
      destruct (FlushInactiveMembers_Some mf (<[imf_group mf := G1]> h) G1)
        as (G2 & -> & Hm & Hd & Hi); [by rewrite lookup_insert_eq|].
      rewrite insert_insert_eq. do 3 f_equal. apply Group_eq; [done| |done].
      rewrite Hi. apply set_eq. intros x.
      rewrite elem_of_union, elem_of_list_to_set, list_elem_of_filter.
      rewrite Hop, list_elem_of_filter, isActive_false. tauto.
    + unfold FlushInactiveMembers, call_OperatingMemberIDs, go_bind, deref.
      by rewrite HG.
  - destruct (h !! dmf_group mf) as [G|] eqn:HG.
    + destruct (FlushDisqualifiedMembers_keeps mf h G HG)
        as (G1 & -> & Hop).
      destruct (FlushDisqualifiedMembers_Some mf (<[dmf_group mf := G1]> h) G1)
        as (G2 & -> & Hm & Hi & Hd); [by rewrite lookup_insert_eq|].
      rewrite insert_insert_eq. do 3 f_equal. apply Group_eq; [done..|].
      rewrite Hd. apply set_eq. intros x.
      rewrite elem_of_union, elem_of_list_to_set, list_elem_of_filter.
      rewrite Hop, list_elem_of_filter, isDisqualified_true. tauto.
    + unfold FlushDisqualifiedMembers, call_OperatingMemberIDs, go_bind, deref.
      by rewrite HG.
Qed.

(** A flush writes to the group of its filter only, and there only to its
    own fault set: every other group of the heap is as it was, and in the
    group of the filter [members] and the other fault set are as they
    were. *)
Theorem flush_frame h G :
  (∀ mf, h !! imf_group mf = Some G →
     ∃ G', FlushInactiveMembers mf h = Some (tt, <[imf_group mf := G']> h)
       ∧ Group.members G' = Group.members G
       ∧ Group.disqualifiedMembers G' = Group.disqualifiedMembers G
       ∧ ∀ q, q ≠ imf_group mf → <[imf_group mf := G']> h !! q = h !! q)
  ∧ (∀ mf, h !! dmf_group mf = Some G →
       ∃ G', FlushDisqualifiedMembers mf h
             = Some (tt, <[dmf_group mf := G']> h)
         ∧ Group.members G' = Group.members G
         ∧ Group.inactiveMembers G' = Group.inactiveMembers G
         ∧ ∀ q, q ≠ dmf_group mf → <[dmf_group mf := G']> h !! q = h !! q).
Proof.
  split; intros mf HG.
  - destruct (FlushInactiveMembers_Some mf h G HG) as (G' & ? & ? & ? & _).
    exists G'. split_and!; [done..|]. intros q Hq.
    by rewrite lookup_insert_ne.
  - destruct (FlushDisqualifiedMembers_Some mf h G HG) as (G' & ? & ? & ? & _).
    exists G'. split_and!; [done..|]. intros q Hq.
    by rewrite lookup_insert_ne.
Qed.

Lemma run_flush_consistent (c : FlushCall) h :
  is_Some (h !! flush_group c) →
  (∀ p G, h !! p = Some G → fault_sets_consistent G) →
  ∃ h', run_flush c h = Some (tt, h')
    ∧ (∀ q, is_Some (h !! q) → is_Some (h' !! q))
    ∧ ∀ p G', h' !! p = Some G' → fault_sets_consistent G'.
Proof.
  intros [G HG] Hall. pose proof (Hall _ _ HG) as (Hdisj & Hia & Hdq).
  destruct c as [mf|mf]; simpl in *.
  - destruct (FlushInactiveMembers_Some mf h G HG) as (G' & -> & Hm & Hd & Hi).
    eexists. split_and!; [done| |].
    + intros q Hq. destruct (decide (q = imf_group mf)) as [->|Hne].
      * rewrite lookup_insert_eq. by eexists.
      * by rewrite lookup_insert_ne.
    + intros q Gq. destruct (decide (q = imf_group mf)) as [->|Hne].
      * rewrite lookup_insert_eq. intros [= <-].
        unfold fault_sets_consistent. rewrite Hm, Hd, Hi. split_and!.
        -- apply elem_of_disjoint. intros x.
           rewrite elem_of_union, elem_of_list_to_set, list_elem_of_filter.
           rewrite elem_of_OperatingMemberIDs. set_solver.
        -- intros x.
           rewrite elem_of_union, elem_of_list_to_set, list_elem_of_filter.
           rewrite elem_of_OperatingMemberIDs. naive_solver.
        -- done.
      * rewrite lookup_insert_ne by done. apply Hall.
  - destruct (FlushDisqualifiedMembers_Some mf h G HG)
      as (G' & -> & Hm & Hi & Hd).
    eexists. split_and!; [done| |].
    + intros q Hq. destruct (decide (q = dmf_group mf)) as [->|Hne].
      * rewrite lookup_insert_eq. by eexists.
      * by rewrite lookup_insert_ne.
    + intros q Gq. destruct (decide (q = dmf_group mf)) as [->|Hne].
      * rewrite lookup_insert_eq. intros [= <-].
        unfold fault_sets_consistent. rewrite Hm, Hd, Hi. split_and!.
        -- apply elem_of_disjoint. intros x.
           rewrite elem_of_union, elem_of_list_to_set, list_elem_of_filter.
           rewrite elem_of_OperatingMemberIDs. set_solver.
        -- done.
        -- intros x.
           rewrite elem_of_union, elem_of_list_to_set, list_elem_of_filter.
           rewrite elem_of_OperatingMemberIDs. naive_solver.
      * rewrite lookup_insert_ne by done. apply Hall.
Qed.

(** The fault sets stay consistent: when in every group of the heap the
    inactive and the disqualified members are disjoint and are members, a
    run of flushes of either kind, by any filters, leaves them so.  No
    flush puts a member in both fault sets. *)
Theorem flushes_keep_fault_sets_consistent (calls : list FlushCall) : ∀ h,
  Forall (λ c, is_Some (h !! flush_group c)) calls →
  (∀ p G, h !! p = Some G → fault_sets_consistent G) →
  ∃ h', run_flushes calls h = Some (tt, h')
    ∧ ∀ p G', h' !! p = Some G' → fault_sets_consistent G'.
Proof.
  unfold run_flushes.
  induction calls as [|c calls IH]; intros h Hvalid Hall; simpl.
  - by exists h.
  - apply Forall_cons in Hvalid as [Hc Hrest].
    destruct (run_flush_consistent c h Hc Hall) as (h1 & Hrun1 & Hdom & Hall1).
    unfold go_bind. rewrite Hrun1.
    apply IH; [|done].
    eapply Forall_impl; [exact Hrest|]. simpl. intros c'. apply Hdom.
Qed.

Lemma FlushInactiveMembers_ext_operating mf1 mf2 h G :
  h !! imf_group mf1 = Some G →
  imf_group mf1 = imf_group mf2 →
  (∀ id, id ∈ Group.OperatingMemberIDs G → isActive mf1 id = isActive mf2 id) →
  FlushInactiveMembers mf1 h = FlushInactiveMembers mf2 h.
Proof.
  intros HG Hg Hact. unfold FlushInactiveMembers, call_OperatingMemberIDs.
  rewrite <-Hg. unfold go_bind at 1 2 3 4. unfold deref. rewrite HG. simpl.
  apply for_range_ext_in. intros x st Hx. by rewrite Hact.
Qed.

Lemma FlushDisqualifiedMembers_ext_operating mf1 mf2 h G :
  h !! dmf_group mf1 = Some G →
  dmf_group mf1 = dmf_group mf2 →
  (∀ id, id ∈ Group.OperatingMemberIDs G →
         isDisqualified mf1 id = isDisqualified mf2 id) →
  FlushDisqualifiedMembers mf1 h = FlushDisqualifiedMembers mf2 h.
Proof.
  intros HG Hg Hdq. unfold FlushDisqualifiedMembers, call_OperatingMemberIDs.
  rewrite <-Hg. unfold go_bind at 1 2 3 4. unfold deref. rewrite HG. simpl.
  apply for_range_ext_in. intros x st Hx. by rewrite Hdq.
Qed.

(** A mark of an index that is not an operating member of the group (an
    index outside the group, or a member already inactive or
    disqualified), and a mark of the owner itself, are without effect: the
    phase flushes as it does without that mark, for either filter. *)
Theorem marks_of_non_operating_ignored s p h G id
    (before after : list MemberIndex) :
  h !! p = Some G →
  id ∉ Group.OperatingMemberIDs G ∨ id = s →
  inactive_phase s p (before ++ id :: after) h
  = inactive_phase s p (before ++ after) h
  ∧ disqualified_phase s p (before ++ id :: after) h
    = disqualified_phase s p (before ++ after) h.
Proof.
  intros HG Hid. split.
  - unfold inactive_phase, go_bind. rewrite !mark_active_all_Some. simpl.
    eapply FlushInactiveMembers_ext_operating; [done..|].
    intros x Hx. apply Bool.eq_true_iff_eq. rewrite !isActive_true. simpl.
    rewrite !elem_of_app, elem_of_cons. naive_solver.
  - unfold disqualified_phase, go_bind.
    rewrite !mark_disqualified_all_Some. simpl.
    eapply FlushDisqualifiedMembers_ext_operating; [done..|].
    intros x Hx. apply Bool.eq_true_iff_eq. rewrite !isDisqualified_true.
    simpl. rewrite !elem_of_app, elem_of_cons. naive_solver.
Qed.

(** What a phase flushes depends on which indices were marked, not on
    the order of the marks nor on how often an index was marked. *)
Theorem marks_order_irrelevant s p h (marks marks' : list MemberIndex) :
  (∀ id, id ∈ marks ↔ id ∈ marks') →
  inactive_phase s p marks h = inactive_phase s p marks' h
  ∧ disqualified_phase s p marks h = disqualified_phase s p marks' h.
Proof.
  intros Hsame. split.
  - unfold inactive_phase, go_bind. rewrite !mark_active_all_Some. simpl.
    apply FlushInactiveMembers_ext; [done|]. intros x.
    by apply isActive_ext.
  - unfold disqualified_phase, go_bind.
    rewrite !mark_disqualified_all_Some. simpl.
    apply FlushDisqualifiedMembers_ext; [done|]. intros x.
    by apply isDisqualified_ext.
Qed.

(** Filters as the constructors return them.  A new disqualified filter
    flushes nothing: the heap is as it was.  A new inactive filter
    flushes every operating member but its owner: of the operating
    members only the owner is left. *)
Theorem new_filters_flush s p h G :
  h !! p = Some G →
  FlushDisqualifiedMembers (NewDisqualifiedMemberFilter s p) h = Some (tt, h)
  ∧ ∃ G', FlushInactiveMembers (NewInactiveMemberFilter s p) h
          = Some (tt, <[p := G']> h)
      ∧ Group.OperatingMemberIDs G'
        = filter (λ m, m = s) (Group.OperatingMemberIDs G)
      ∧ ∀ m, m ∈ Group.inactiveMembers G'
             ↔ m ∈ Group.inactiveMembers G
               ∨ (m ∈ Group.OperatingMemberIDs G ∧ m ≠ s).
Proof.
  intros HG. split.
  - destruct (FlushDisqualifiedMembers_Some (NewDisqualifiedMemberFilter s p)
                h G HG) as (G' & -> & Hm & Hi & Hd).
    simpl. do 2 f_equal. apply insert_id. rewrite HG. f_equal. symmetry.
    apply Group_eq; [done..|]. rewrite Hd. apply set_eq. intros x.
    rewrite elem_of_union, elem_of_list_to_set, list_elem_of_filter.
    rewrite isDisqualified_true. simpl. rewrite elem_of_nil. tauto.
  - destruct (FlushInactiveMembers_keeps (NewInactiveMemberFilter s p)
                h G HG) as (G' & Hrun & Hop).
    destruct (FlushInactiveMembers_Some (NewInactiveMemberFilter s p)
                h G HG) as (G2 & Hrun2 & _ & _ & Hi).
    rewrite Hrun in Hrun2. injection Hrun2 as Heq.
    apply (f_equal (λ hh : gmap nat Group.t, hh !! p)) in Heq.
    simpl in Heq. rewrite !lookup_insert_eq in Heq. injection Heq as <-.
    exists G'. simpl in *. split_and!; [done| |].
    + rewrite Hop. apply filter_ext_in. intros x _.
      rewrite elem_of_nil. tauto.
    + intros m. rewrite Hi, elem_of_union, elem_of_list_to_set.
      rewrite list_elem_of_filter, isActive_false. simpl.
      rewrite elem_of_nil. tauto.
Qed.

Lemma IsSenderAccepted_Some h p G (message : M) :
  h !! p = Some G →
  IsSenderAccepted p message h
  = Some (Group.IsSenderAccepted G (SenderID message), h).
Proof.
  intros HG.
  unfold IsSenderAccepted, filter_IsSenderAccepted, group_MessageFiltering.
  unfold go_bind, deref. by rewrite HG.
Qed.

Lemma Group_IsSenderAccepted_true G id :
  Group.IsSenderAccepted G id = true ↔ id ∈ Group.OperatingMemberIDs G.
Proof.
  unfold Group.IsSenderAccepted.
  rewrite bool_decide_eq_true, elem_of_OperatingMemberIDs, not_elem_of_union.
  tauto.
Qed.

(** Filtering after a flush.  After the inactive phase of owner [s] a
    sender is accepted exactly if it was accepted before and is [s] or
    was marked active; after the disqualified phase, exactly if it was
    accepted before and is [s] or was not marked disqualified. *)
Theorem acceptance_after_flush s p h G marks (message : M) :
  h !! p = Some G →
  (∃ h' b b', inactive_phase s p marks h = Some (tt, h')
     ∧ IsSenderAccepted p message h = Some (b, h)
     ∧ IsSenderAccepted p message h' = Some (b', h')
     ∧ (b' = true
        ↔ b = true ∧ (SenderID message = s ∨ SenderID message ∈ marks)))
  ∧ (∃ h' b b', disqualified_phase s p marks h = Some (tt, h')
       ∧ IsSenderAccepted p message h = Some (b, h)
       ∧ IsSenderAccepted p message h' = Some (b', h')
       ∧ (b' = true
          ↔ b = true ∧ (SenderID message = s ∨ SenderID message ∉ marks))).
Proof.
  intros HG. split.
  - destruct (inactive_phase_Some s p marks h G HG)
      as (G' & Hrun & Hm & Hd & Hi).
    eexists _, _, _. split_and!; [exact Hrun| | |].
    + by apply IsSenderAccepted_Some.
    + apply IsSenderAccepted_Some. by rewrite lookup_insert_eq.
    + rewrite !Group_IsSenderAccepted_true, !elem_of_OperatingMemberIDs.
      rewrite Hm, Hd, Hi, elem_of_OperatingMemberIDs.
      destruct (decide (SenderID message = s));
        destruct (decide (SenderID message ∈ marks)); tauto.
  - destruct (disqualified_phase_Some s p marks h G HG)
      as (G' & Hrun & Hm & Hi & Hd).
    eexists _, _, _. split_and!; [exact Hrun| | |].
    + by apply IsSenderAccepted_Some.
    + apply IsSenderAccepted_Some. by rewrite lookup_insert_eq.
    + rewrite !Group_IsSenderAccepted_true, !elem_of_OperatingMemberIDs.
      rewrite Hm, Hi, Hd, elem_of_OperatingMemberIDs.
      destruct (decide (SenderID message = s));
        destruct (decide (SenderID message ∈ marks)); tauto.
Qed.

(** A member's own messages: whatever the member marked in its inactive
    and its disqualified filter of a phase, after both flushes a message
    of the member itself is accepted exactly if it was accepted before
    them. *)
Theorem own_messages_stay_accepted s p h G
    (marksActive marksDisqualified : list MemberIndex) (message : M) :
  h !! p = Some G →
  IsMessageFromSelf s message = true →
  ∃ h' b,
    (let* _ := inactive_phase s p marksActive in
     disqualified_phase s p marksDisqualified) h = Some (tt, h')
    ∧ IsSenderAccepted p message h = Some (b, h)
    ∧ IsSenderAccepted p message h' = Some (b, h').
Proof.
  intros HG Hself. unfold IsMessageFromSelf in Hself.
  destruct (decide (SenderID message = s)) as [Hs|]; [|done].
  destruct (inactive_phase_Some s p marksActive h G HG)
    as (G1 & Hrun1 & Hm1 & Hd1 & Hi1).
  destruct (disqualified_phase_Some s p marksDisqualified
              (<[p := G1]> h) G1) as (G2 & Hrun2 & Hm2 & Hi2 & Hd2);
    [by rewrite lookup_insert_eq|].
  exists (<[p := G2]> h), (Group.IsSenderAccepted G (SenderID message)).
  split_and!.
  - unfold go_bind. rewrite Hrun1, Hrun2. by rewrite insert_insert_eq.
  - by apply IsSenderAccepted_Some.
  - rewrite (IsSenderAccepted_Some _ p G2) by (by rewrite lookup_insert_eq).
    do 2 f_equal. apply Bool.eq_true_iff_eq.
    rewrite !Group_IsSenderAccepted_true, !elem_of_OperatingMemberIDs.
    rewrite Hm2, Hi2, Hd2, Hm1, Hd1, Hi1, !elem_of_OperatingMemberIDs.
    tauto.
Qed.

End flush_more.

(** * Further properties of group selection *)

Section selection_more.
Import Registry.
Implicit Types (r : Registry.t) (rnd : nat → nat) (now draw : nat).

Lemma verify_SelectNext now draw r r1 :
  verify now draw r = SelectNext r1 →
  ∃ i c, activeGroupList r !! i = Some c
    ∧ is_expired now c = true
    ∧ ¬ activeGroupsCounter r < activeGroupsThreshold r
    ∧ r1 = expire i c r.
Proof.
  intros Hround.
  destruct (verify_cases now draw r) as [[_ Hv]|(c & Hc & Hv)];
    rewrite Hv in Hround; [done|].
  destruct (activeGroupsCounter r <? activeGroupsThreshold r) eqn:Hlt;
    [done|].
  destruct (is_expired now c) eqn:Hexp; [|done].
  injection Hround as <-. eexists _, c. split_and!; [done..| |done].
  by apply Nat.ltb_nlt.
Qed.

Lemma verify_Respond now draw r selected :
  verify now draw r = Respond selected →
  match selected with
  | Some a => a ∈ activeGroupList r
              ∧ (is_expired now a = false
                 ∨ activeGroupsCounter r < activeGroupsThreshold r)
  | None => activeGroupList r = []
  end.
Proof.
  intros Hround.
  destruct (verify_cases now draw r) as [[Hnil Hv]|(c & Hc & Hv)];
    rewrite Hv in Hround.
  - by injection Hround as <-.
  - apply list_elem_of_lookup_2 in Hc.
    destruct (activeGroupsCounter r <? activeGroupsThreshold r) eqn:Hlt.
    + injection Hround as <-. split; [done|]. right. by apply Nat.ltb_lt.
    + destruct (is_expired now c) eqn:Hexp; [done|].
      injection Hround as <-. split; [done|]. by left.
Qed.

(** Induction over the rounds of a selection: a property of a registry
    and the outcome of selection holds when it holds for a round that
    responds and is carried back over a round that retires a group. *)
Lemma Selection_rounds_ind now
    (P : Registry.t → option Agreement * Registry.t → Prop) :
  (∀ r draw selected,
     verify now draw r = Respond selected → P r (selected, r)) →
  (∀ r i c res,
     activeGroupList r !! i = Some c →
     is_expired now c = true →
     ¬ activeGroupsCounter r < activeGroupsThreshold r →
     P (expire i c r) res → P r res) →
  ∀ rnd r, P r (Selection rnd now r).
Proof.
  intros Hrespond Hnext rnd r.
  remember (length (activeGroupList r)) as n eqn:Hn.
  revert rnd r Hn. induction (lt_wf n) as [n _ IH]. intros rnd r ->.
  rewrite Selection_rounds.
  destruct (verify now (rnd 0) r) as [selected|r1] eqn:Hround.
  - by eapply Hrespond.
  - pose proof (verify_shrinks _ _ _ _ Hround) as Hlt.
    apply verify_SelectNext in Hround as (i & c & Hc & Hexp & Hge & ->).
    eapply Hnext; [done..|]. by eapply IH.
Qed.

Lemma Selection_wf rnd now r : wf r → wf (Selection rnd now r).2.
Proof.
  revert rnd r.
  apply (Selection_rounds_ind now (λ r res, wf r → wf res.2)).
  - by intros r draw selected _ Hwf.
  - intros r i c res Hc _ _ IH Hwf. apply IH. by apply expire_wf.
Qed.

Lemma Selection_keeps_unexpired rnd now r a :
  a ∈ activeGroupList r → is_expired now a = false →
  a ∈ activeGroupList (Selection rnd now r).2.
Proof.
  revert rnd r.
  apply (Selection_rounds_ind now
           (λ r res, a ∈ activeGroupList r → is_expired now a = false →
                     a ∈ activeGroupList res.2)).
  - by intros r draw selected _ Ha _.
  - intros r i c res Hc Hexp _ IH Ha Hnot. apply IH; [|done]. simpl.
    apply list_elem_of_lookup in Ha as [j Hj].
    destruct (decide (j = i)) as [->|Hne]; [congruence|].
    apply list_elem_of_lookup.
    destruct (decide (j < i)).
    + exists j. by rewrite list_lookup_delete_lt by lia.
    + exists (pred j). rewrite list_lookup_delete_ge by lia.
      by replace (S (pred j)) with j by lia.
Qed.

(** Selection keeps the registry invariant: from a well-formed registry
    it leaves a well-formed registry, whatever the random numbers and the
    current time. *)
Theorem Selection_preserves_wf rnd now r :
  wf r → wf (Selection rnd now r).2.
Proof. apply Selection_wf. Qed.

(** The group selection presents.  It is on the active list the
    contract is left with, and in a well-formed registry its state is
    active; the current time is not past its registration time plus its
    timeout, unless the number of active groups is below the threshold.
    No group is presented only when the active list is left empty. *)
Theorem Selection_presents rnd now r :
  wf r →
  match Selection rnd now r with
  | (Some a, r') =>
      a ∈ activeGroupList r'
      ∧ state a = Active
      ∧ (now ≤ registrationTime a + timeout a
         ∨ activeGroupsCounter r' < activeGroupsThreshold r')
  | (None, r') => activeGroupList r' = []
  end.
Proof.
  revert rnd r.
  apply (Selection_rounds_ind now
    (λ r res, wf r →
       match res with
       | (Some a, r') =>
           a ∈ activeGroupList r'
           ∧ state a = Active
           ∧ (now ≤ registrationTime a + timeout a
              ∨ activeGroupsCounter r' < activeGroupsThreshold r')
       | (None, r') => activeGroupList r' = []
       end)).
  - intros r draw [a|] Hround (_ & Hact & _); apply verify_Respond in Hround;
      [|done].
    destruct Hround as [Ha Hor]. split_and!; [done| |].
    + by apply (proj1 (Forall_forall _ _) Hact).
    + destruct Hor as [Hexp%Nat.ltb_ge|]; [by left|by right].
  - intros r i c res Hc _ _ IH Hwf. apply IH. by apply expire_wf.
Qed.

(** Selection retires only groups past their timeout: the active list it
    leaves is the active list it found with some agreements taken out
    and the order kept, every agreement not past its timeout is still on
    it, and when no active group is past its timeout the registry is
    left as it was. *)
Theorem Selection_retires_only_expired rnd now r :
  sublist (activeGroupList (Selection rnd now r).2) (activeGroupList r)
  ∧ (∀ a, a ∈ activeGroupList r →
          now ≤ registrationTime a + timeout a →
          a ∈ activeGroupList (Selection rnd now r).2)
  ∧ (Forall (λ a, now ≤ registrationTime a + timeout a) (activeGroupList r) →
     (Selection rnd now r).2 = r).
Proof.
  split_and!.
  - revert rnd r.
    apply (Selection_rounds_ind now
             (λ r res, sublist (activeGroupList res.2) (activeGroupList r))).
    + by intros r draw selected _.
    + intros r i c res _ _ _ IH. etrans; [exact IH|]. simpl.
      apply sublist_delete.
  - intros a Ha Hle. apply Selection_keeps_unexpired; [done|].
    by apply Nat.ltb_ge.
  - revert rnd r.
    apply (Selection_rounds_ind now
             (λ r res, Forall (λ a, now ≤ registrationTime a + timeout a)
                         (activeGroupList r) → res.2 = r)).
    + by intros r draw selected _ _.
    + intros r i c res Hc Hexp%Nat.ltb_lt _ _ Hall.
      pose proof (proj1 (Forall_lookup _ _) Hall _ _ Hc). simpl in *. lia.
Qed.

(** Selection loses and invents no agreement: the expired list it leaves
    starts with the expired list it found, the identifiers on the two
    lists together are those that were there before, and every agreement
    added to the expired list is an agreement of the active list, past
    its timeout, with its state set to expired.  The threshold is not
    changed. *)
Theorem Selection_conserves rnd now r :
  expiredGroupList r `prefix_of` expiredGroupList (Selection rnd now r).2
  ∧ id <$> (activeGroupList (Selection rnd now r).2
            ++ expiredGroupList (Selection rnd now r).2)
    ≡ₚ id <$> (activeGroupList r ++ expiredGroupList r)
  ∧ (∀ a, a ∈ expiredGroupList (Selection rnd now r).2 →
          a ∈ expiredGroupList r
          ∨ ∃ c, c ∈ activeGroupList r
              ∧ registrationTime c + timeout c < now
              ∧ a = set_expired c)
  ∧ activeGroupsThreshold (Selection rnd now r).2 = activeGroupsThreshold r.
Proof.
  revert rnd r.
  apply (Selection_rounds_ind now
    (λ r res,
       expiredGroupList r `prefix_of` expiredGroupList res.2
       ∧ id <$> (activeGroupList res.2 ++ expiredGroupList res.2)
         ≡ₚ id <$> (activeGroupList r ++ expiredGroupList r)
       ∧ (∀ a, a ∈ expiredGroupList res.2 →
               a ∈ expiredGroupList r
               ∨ ∃ c, c ∈ activeGroupList r
                   ∧ registrationTime c + timeout c < now
                   ∧ a = set_expired c)
       ∧ activeGroupsThreshold res.2 = activeGroupsThreshold r)).
  - intros r draw selected _. simpl. split_and!; try done. by left.
  - intros r i c res Hc Hexp%Nat.ltb_lt _ (Hpre & Hperm & Hnew & Hthr).
    simpl in *. split_and!.
    + etrans; [|exact Hpre]. by apply prefix_app_r.
    + rewrite Hperm. rewrite (delete_Permutation _ _ _ Hc) at 2.
      rewrite (assoc_L (++)), !fmap_app, fmap_cons. simpl.
      by rewrite <-Permutation_cons_append.
    + intros a Ha. destruct (Hnew a Ha) as [Hold|(c' & Hc' & ? & ?)].
      * apply elem_of_app in Hold as [?|Hone]; [by left|].
        apply list_elem_of_singleton in Hone as ->. right. exists c.
        split_and!; [|done..]. by eapply list_elem_of_lookup_2.
      * right. exists c'. split_and!; [|done..].
        by eapply list_elem_of_delete_inv.
    + done.
Qed.

(** The floor the threshold gives: when selection retires any group at
    all, the counter it leaves is at most one below the threshold.  With
    a threshold of one the last group can be retired. *)
Theorem Selection_floor rnd now r :
  (Selection rnd now r).2 = r
  ∨ activeGroupsThreshold r ≤ S (activeGroupsCounter (Selection rnd now r).2).
Proof.
  revert rnd r.
  apply (Selection_rounds_ind now
    (λ r res, res.2 = r
              ∨ activeGroupsThreshold r ≤ S (activeGroupsCounter res.2))).
  - intros r draw selected _. by left.
  - intros r i c res _ _ Hge [->|Hle]; right; simpl in *; lia.
Qed.

(** Registration keeps the registry invariant exactly when the new
    identifier is not yet on either list. *)
Theorem Registration_wf newId groupMembers currentTime groupTimeout r :
  wf r →
  wf (Registration newId groupMembers currentTime groupTimeout r)
  ↔ newId ∉ id <$> (activeGroupList r ++ expiredGroupList r).
Proof.
  intros (Hcnt & Hact & Hexp & Hids). unfold wf, Registration. simpl.
  rewrite length_app, Forall_app, Forall_singleton. simpl.
  assert (id <$> (activeGroupList r
                    ++ [mkAgreement newId groupMembers currentTime
                          groupTimeout Active])
                 ++ expiredGroupList r
          ≡ₚ newId :: (id <$> activeGroupList r ++ expiredGroupList r)) as ->.
  { rewrite !fmap_app. simpl. rewrite <-(assoc_L (++)). simpl.
    by rewrite <-Permutation_middle. }
  rewrite NoDup_cons. split; [tauto|].
  intros Hfresh. split_and!; [lia|done..].
Qed.

(** A registered group can be selected until its timeout has passed:
    after registration at [currentTime], a selection at any time up to
    [currentTime + groupTimeout] leaves the new agreement on the active
    list, whatever else it retires. *)
Theorem registered_group_stays_active
    newId groupMembers currentTime groupTimeout r rnd now :
  now ≤ currentTime + groupTimeout →
  mkAgreement newId groupMembers currentTime groupTimeout Active
  ∈ activeGroupList
      (Selection rnd now
         (Registration newId groupMembers currentTime groupTimeout r)).2.
Proof.
  intros Hle. apply Selection_keeps_unexpired.
  - simpl. apply elem_of_app. right. by apply list_elem_of_singleton.
  - by apply Nat.ltb_ge.
Qed.

End selection_more.

(** * Properties of the libp2p provider's lists *)

Section libp2p_facts.
Context {ID Multiaddr PeerInfo error : Type} `{EqDecision ID}.
Context (ID_String : ID → string).
Context (NewMultiaddr : string → Multiaddr + error).
Context (InfoFromP2pAddr : Multiaddr → PeerInfo + error).
Context (Encapsulate : Multiaddr → Multiaddr → Multiaddr).
Context (tcp_port : Z → string).

Lemma filter_all {A} (P : A → Prop) `{∀ x, Decision (P x)} (l : list A) :
  (∀ x, x ∈ l → P x) → filter P l = l.
Proof.
  induction l as [|a l IH]; intros HP; [done|].
  rewrite filter_cons, decide_True by (apply HP; left).
  f_equal. apply IH. intros x Hx. apply HP. by right.
Qed.

Lemma Peers_range_app (identity_id : ID) (peersIDSlice : list ID) :
  ∀ peers, Peers_range ID_String identity_id peersIDSlice peers
           = peers ++ (ID_String <$> filter (λ p, p ≠ identity_id) peersIDSlice).
Proof.
  induction peersIDSlice as [|peer rest IH]; intros peers; simpl.
  - by rewrite app_nil_r.
  - rewrite filter_cons. destruct (decide (peer = identity_id)) as [->|Hne].
    + rewrite IH. by case_decide.
    + rewrite IH. case_decide; [|done]. simpl. by rewrite <-app_assoc.
Qed.

(** [Peers] lists, in the order of the peerstore, the string of every
    peer identifier of the peerstore that is not the node's own, once per
    occurrence, and nothing else; there are at most as many as the
    peerstore holds, and when printing identifiers is injective the
    node's own string is not among them. *)
Theorem Peers_lists_the_others (identity_id : ID) (peersIDSlice : list ID) :
  Peers ID_String identity_id peersIDSlice
  = ID_String <$> filter (λ p, p ≠ identity_id) peersIDSlice
  ∧ length (Peers ID_String identity_id peersIDSlice) ≤ length peersIDSlice
  ∧ (identity_id ∉ peersIDSlice →
     Peers ID_String identity_id peersIDSlice = ID_String <$> peersIDSlice)
  ∧ (Inj (=) (=) ID_String →
     ID_String identity_id ∉ Peers ID_String identity_id peersIDSlice).
Proof.
  assert (Heq : Peers ID_String identity_id peersIDSlice
                = ID_String <$> filter (λ p, p ≠ identity_id) peersIDSlice).
  { unfold Peers. by rewrite Peers_range_app. }
  rewrite !Heq. split_and!.
  - done.
  - rewrite length_fmap. apply length_filter.
  - intros Hnot. f_equal. apply filter_all. intros p Hp ->. done.
  - intros Hinj (p & Hp%Hinj & Hin)%list_elem_of_fmap.
    apply list_elem_of_filter in Hin as [Hne _]. by subst.
Qed.

Lemma extractMultiAddrFromPeers_range_inl (peers : list string) :
  ∀ peerInfos result,
    extractMultiAddrFromPeers_range NewMultiaddr InfoFromP2pAddr peers peerInfos
    = inl result
    ↔ ∃ new, result = peerInfos ++ new
        ∧ Forall2 (λ peer info, ∃ ipfsaddr,
                     NewMultiaddr peer = inl ipfsaddr
                     ∧ InfoFromP2pAddr ipfsaddr = inl info) peers new.
Proof.
  induction peers as [|peer rest IH]; intros peerInfos result; simpl.
  - split.
    + intros [= <-]. exists []. by rewrite app_nil_r.
    + intros (new & -> & ->%Forall2_nil_inv_l). by rewrite app_nil_r.
  - destruct (NewMultiaddr peer) as [ipfsaddr|err] eqn:Hma.
    + destruct (InfoFromP2pAddr ipfsaddr) as [peerInfo|err] eqn:Hinfo.
      * rewrite IH. split.
        -- intros (new & -> & Hall). exists (peerInfo :: new).
           rewrite <-app_assoc. split; [done|]. constructor; [|done].
           by exists ipfsaddr.
        -- intros (new & -> & Hall).
           apply Forall2_cons_inv_l in Hall
             as (info & new' & (ma' & Hm' & Hi) & Hall & ->).
           rewrite Hma in Hm'. injection Hm' as <-.
           rewrite Hinfo in Hi. injection Hi as <-.
           exists new'. by rewrite <-app_assoc.
      * split; [done|]. intros (new & _ & Hall).
        apply Forall2_cons_inv_l in Hall
          as (info & new' & (ma' & Hm' & Hi) & _).
        rewrite Hma in Hm'. injection Hm' as <-. congruence.
    + split; [done|]. intros (new & _ & Hall).
      apply Forall2_cons_inv_l in Hall as (info & new' & (ma' & ? & _) & _).
      congruence.
Qed.

Lemma extractMultiAddrFromPeers_range_inr (peers : list string) :
  ∀ peerInfos err,
    extractMultiAddrFromPeers_range NewMultiaddr InfoFromP2pAddr peers peerInfos
    = inr err
    ↔ ∃ good bad rest,
        peers = good ++ bad :: rest
        ∧ Forall (λ peer, ∃ ipfsaddr info,
                    NewMultiaddr peer = inl ipfsaddr
                    ∧ InfoFromP2pAddr ipfsaddr = inl info) good
        ∧ (NewMultiaddr bad = inr err
           ∨ ∃ ipfsaddr, NewMultiaddr bad = inl ipfsaddr
                         ∧ InfoFromP2pAddr ipfsaddr = inr err).
Proof.
  induction peers as [|peer rest IH]; intros peerInfos err; simpl.
  - split; [done|]. intros (good & bad & rest & Hnil & _).
    by destruct good.
  - destruct (NewMultiaddr peer) as [ipfsaddr|err'] eqn:Hma.
    + destruct (InfoFromP2pAddr ipfsaddr) as [peerInfo|err'] eqn:Hinfo.
      * rewrite IH. split.
        -- intros (good & bad & rest' & -> & Hgood & Hbad).
           exists (peer :: good), bad, rest'. split_and!; [done| |done].
           constructor; [|done]. by exists ipfsaddr, peerInfo.
        -- intros ([|g good] & bad & rest' & Heq & Hgood & Hbad);
             simpl in Heq; injection Heq as <- ->.
           ++ destruct Hbad as [?|(ma' & ? & ?)]; congruence.
           ++ apply Forall_cons in Hgood as [_ Hgood].
              by exists good, bad, rest'.
      * split.
        -- intros [= <-]. exists [], peer, rest. split_and!; [done..|].
           right. by exists ipfsaddr.
        -- intros ([|g good] & bad & rest' & Heq & Hgood & Hbad);
             simpl in Heq; injection Heq as <- ->.
           ++ destruct Hbad as [?|(ma' & ? & ?)]; congruence.
           ++ apply Forall_cons in Hgood as [(ma' & info & ? & ?) _].
              congruence.
    + split.
      * intros [= <-]. exists [], peer, rest. split_and!; [done..|]. by left.
      * intros ([|g good] & bad & rest' & Heq & Hgood & Hbad);
          simpl in Heq; injection Heq as <- ->.
        -- destruct Hbad as [?|(ma' & ? & ?)]; congruence.
        -- apply Forall_cons in Hgood as [(ma' & info & ? & ?) _].
           congruence.
Qed.

(** [extractMultiAddrFromPeers] succeeds exactly when every peer string
    parses as a multiaddress that yields a peer info, and then returns
    those infos, one per peer and in the order of the peers; an empty
    list of peers yields no info and no error. *)
Theorem extractMultiAddrFromPeers_success (peers : list string)
    (peerInfos : list PeerInfo) :
  (extractMultiAddrFromPeers NewMultiaddr InfoFromP2pAddr peers = inl peerInfos
   ↔ Forall2 (λ peer info, ∃ ipfsaddr,
                NewMultiaddr peer = inl ipfsaddr
                ∧ InfoFromP2pAddr ipfsaddr = inl info) peers peerInfos)
  ∧ extractMultiAddrFromPeers NewMultiaddr InfoFromP2pAddr [] = inl [].
Proof.
  split; [|done]. unfold extractMultiAddrFromPeers.
  rewrite extractMultiAddrFromPeers_range_inl. simpl. naive_solver.
Qed.

(** [extractMultiAddrFromPeers] fails with the error of the first peer
    string that does not parse or does not yield a peer info: every peer
    before it parsed, and the infos read so far are not returned. *)
Theorem extractMultiAddrFromPeers_failure (peers : list string) (err : error) :
  extractMultiAddrFromPeers NewMultiaddr InfoFromP2pAddr peers = inr err
  ↔ ∃ good bad rest,
      peers = good ++ bad :: rest
      ∧ Forall (λ peer, ∃ ipfsaddr info,
                  NewMultiaddr peer = inl ipfsaddr
                  ∧ InfoFromP2pAddr ipfsaddr = inl info) good
      ∧ (NewMultiaddr bad = inr err
         ∨ ∃ ipfsaddr, NewMultiaddr bad = inl ipfsaddr
                       ∧ InfoFromP2pAddr ipfsaddr = inr err).
Proof. apply extractMultiAddrFromPeers_range_inr. Qed.

Lemma getListenAddrs_range_inl (port : Z) (portAddr : Multiaddr)
    (ia : list Multiaddr) :
  NewMultiaddr (tcp_port port) = inl portAddr →
  ∀ addrs, getListenAddrs_range NewMultiaddr Encapsulate tcp_port port ia addrs
           = inl (addrs ++ ((λ addr, Encapsulate addr portAddr) <$> ia)).
Proof.
  intros Hport. induction ia as [|addr rest IH]; intros addrs; simpl.
  - by rewrite app_nil_r.
  - rewrite Hport, IH. by rewrite <-app_assoc.
Qed.

(** [getListenAddrs]: an error of [InterfaceAddresses] is returned as it
    is; with no interface address the result is the empty list, whatever
    the port; with at least one, the error of parsing the port address
    is returned if there is one, and otherwise every interface address
    comes back encapsulating the port address, in order. *)
Theorem getListenAddrs_cases (InterfaceAddresses : list Multiaddr + error)
    (port : Z) :
  getListenAddrs NewMultiaddr Encapsulate tcp_port InterfaceAddresses port
  = match InterfaceAddresses with
    | inr err => inr err
    | inl [] => inl []
    | inl ia =>
        match NewMultiaddr (tcp_port port) with
        | inr err => inr err
        | inl portAddr => inl ((λ addr, Encapsulate addr portAddr) <$> ia)
        end
    end.
Proof.
  destruct InterfaceAddresses as [[|addr ia]|err]; [done| |done].
  unfold getListenAddrs.
  destruct (NewMultiaddr (tcp_port port)) as [portAddr|err] eqn:Hport.
  - by rewrite (getListenAddrs_range_inl port portAddr).
  - simpl. by rewrite Hport.
Qed.

End libp2p_facts.

(** * The further properties at work *)

Lemma example_heap_lookup :
  ({[0 := example_group]} : gmap nat Group.t) !! 0 = Some example_group.
Proof. reflexivity. Qed.

Lemma example_heap_consistent :
  ∀ p G, ({[0 := example_group]} : gmap nat Group.t) !! p = Some G →
         fault_sets_consistent G.
Proof.
  intros p G [_ <-]%lookup_singleton_Some.
  unfold fault_sets_consistent, example_group. simpl. set_solver.
Qed.

Lemma FlushInactiveMembers_operating_witness :
  let mf := mkInactiveMemberFilter 1 0 [2; 4; 5] in
  let h : gmap nat Group.t := {[0 := example_group]} in
  h !! imf_group mf = Some example_group
  ∧ ∃ G', FlushInactiveMembers mf h = Some (tt, <[imf_group mf := G']> h)
      ∧ Group.OperatingMemberIDs G'
        = filter (λ m, m = imf_selfMemberID mf ∨ m ∈ phaseActiveMembers mf)
            (Group.OperatingMemberIDs example_group).
Proof.
  simpl. split; [exact example_heap_lookup|].
  exact (FlushInactiveMembers_operating (mkInactiveMemberFilter 1 0 [2; 4; 5])
           {[0 := example_group]} example_group example_heap_lookup).
Defined.

Lemma FlushDisqualifiedMembers_operating_witness :
  let mf := mkDisqualifiedMemberFilter 1 0 [2; 1] in
  let h : gmap nat Group.t := {[0 := example_group]} in
  h !! dmf_group mf = Some example_group
  ∧ ∃ G', FlushDisqualifiedMembers mf h = Some (tt, <[dmf_group mf := G']> h)
      ∧ Group.OperatingMemberIDs G'
        = filter (λ m, ¬ (m ≠ dmf_selfMemberID mf
                          ∧ m ∈ phaseDisqualifiedMembers mf))
            (Group.OperatingMemberIDs example_group).
Proof.
  simpl. split; [exact example_heap_lookup|].
  exact (FlushDisqualifiedMembers_operating
           (mkDisqualifiedMemberFilter 1 0 [2; 1])
           {[0 := example_group]} example_group example_heap_lookup).
Defined.

Lemma flushes_keep_fault_sets_consistent_witness :
  let calls := [ CallFlushInactive (mkInactiveMemberFilter 1 0 [2; 4; 5]);
                 CallFlushDisqualified (mkDisqualifiedMemberFilter 1 0 [2; 3]) ] in
  let h : gmap nat Group.t := {[0 := example_group]} in
  Forall (λ c, is_Some (h !! flush_group c)) calls
  ∧ (∀ p G, h !! p = Some G → fault_sets_consistent G)
  ∧ ∃ h', run_flushes calls h = Some (tt, h')
      ∧ ∀ p G', h' !! p = Some G' → fault_sets_consistent G'.
Proof.
  assert (Hvalid :
    Forall (λ c, is_Some (({[0 := example_group]} : gmap nat Group.t)
                            !! flush_group c))
      [ CallFlushInactive (mkInactiveMemberFilter 1 0 [2; 4; 5]);
        CallFlushDisqualified (mkDisqualifiedMemberFilter 1 0 [2; 3]) ]).
  { repeat (apply Forall_cons_2; [exists example_group; reflexivity|]).
    apply Forall_nil_2. }
  simpl. split_and!; [exact Hvalid|exact example_heap_consistent|].
  exact (flushes_keep_fault_sets_consistent _ _ Hvalid example_heap_consistent).
Defined.

Lemma marks_of_non_operating_ignored_witness :
  let h : gmap nat Group.t := {[0 := example_group]} in
  h !! 0 = Some example_group
  ∧ (9 ∉ Group.OperatingMemberIDs example_group ∨ 9 = 1)
  ∧ inactive_phase 1 0 ([2] ++ 9 :: [4]) h = inactive_phase 1 0 ([2] ++ [4]) h
  ∧ disqualified_phase 1 0 ([2] ++ 9 :: [4]) h
    = disqualified_phase 1 0 ([2] ++ [4]) h.
Proof.
  assert (H9 : 9 ∉ Group.OperatingMemberIDs example_group ∨ 9 = 1).
  { left. rewrite elem_of_OperatingMemberIDs. simpl. set_solver. }
  split_and!; [exact example_heap_lookup|exact H9|..];
    apply (marks_of_non_operating_ignored 1 0 {[0 := example_group]}
             example_group 9 [2] [4] example_heap_lookup H9).
Defined.

Lemma marks_order_irrelevant_witness :
  (∀ id, id ∈ [2; 4] ↔ id ∈ [4; 2; 2])
  ∧ inactive_phase 1 0 [2; 4] ({[0 := example_group]} : gmap nat Group.t)
    = inactive_phase 1 0 [4; 2; 2] {[0 := example_group]}
  ∧ disqualified_phase 1 0 [2; 4] ({[0 := example_group]} : gmap nat Group.t)
    = disqualified_phase 1 0 [4; 2; 2] {[0 := example_group]}.
Proof.
  assert (Hsame : ∀ id, id ∈ [2; 4] ↔ id ∈ [4; 2; 2]) by set_solver.
  split; [exact Hsame|].
  exact (marks_order_irrelevant 1 0 {[0 := example_group]} _ _ Hsame).
Defined.

Lemma new_filters_flush_witness :
  let h : gmap nat Group.t := {[0 := example_group]} in
  h !! 0 = Some example_group
  ∧ FlushDisqualifiedMembers (NewDisqualifiedMemberFilter 1 0) h = Some (tt, h)
  ∧ ∃ G', FlushInactiveMembers (NewInactiveMemberFilter 1 0) h
          = Some (tt, <[0 := G']> h)
      ∧ Group.OperatingMemberIDs G'
        = filter (λ m, m = 1) (Group.OperatingMemberIDs example_group)
      ∧ ∀ m, m ∈ Group.inactiveMembers G'
             ↔ m ∈ Group.inactiveMembers example_group
               ∨ (m ∈ Group.OperatingMemberIDs example_group ∧ m ≠ 1).
Proof.
  simpl. split; [exact example_heap_lookup|].
  exact (new_filters_flush 1 0 {[0 := example_group]} example_group
           example_heap_lookup).
Defined.

Lemma acceptance_after_flush_witness :
  let h : gmap nat Group.t := {[0 := example_group]} in
  let message := mkBareMessage 3 in
  h !! 0 = Some example_group
  ∧ (∃ h' b b', inactive_phase 1 0 [2; 4; 5] h = Some (tt, h')
       ∧ IsSenderAccepted 0 message h = Some (b, h)
       ∧ IsSenderAccepted 0 message h' = Some (b', h')
       ∧ (b' = true
          ↔ b = true ∧ (SenderID message = 1 ∨ SenderID message ∈ [2; 4; 5])))
  ∧ (∃ h' b b', disqualified_phase 1 0 [2; 4; 5] h = Some (tt, h')
       ∧ IsSenderAccepted 0 message h = Some (b, h)
       ∧ IsSenderAccepted 0 message h' = Some (b', h')
       ∧ (b' = true
          ↔ b = true ∧ (SenderID message = 1 ∨ SenderID message ∉ [2; 4; 5]))).
Proof.
  simpl. split; [exact example_heap_lookup|].
  exact (acceptance_after_flush 1 0 {[0 := example_group]} example_group
           [2; 4; 5] (mkBareMessage 3) example_heap_lookup).
Defined.

Lemma own_messages_stay_accepted_witness :
  let h : gmap nat Group.t := {[0 := example_group]} in
  let message := mkBareMessage 1 in
  h !! 0 = Some example_group
  ∧ IsMessageFromSelf 1 message = true
  ∧ ∃ h' b,
      (let* _ := inactive_phase 1 0 [2; 4] in disqualified_phase 1 0 [1; 2]) h
      = Some (tt, h')
      ∧ IsSenderAccepted 0 message h = Some (b, h)
      ∧ IsSenderAccepted 0 message h' = Some (b, h').
Proof.
  simpl. split_and!; [exact example_heap_lookup|reflexivity|].
  exact (own_messages_stay_accepted 1 0 {[0 := example_group]} example_group
           [2; 4] [1; 2] (mkBareMessage 1) example_heap_lookup eq_refl).
Defined.

Lemma example_registry_wf :
  Registry.wf
    (Registry.mk
       [ Registry.mkAgreement 7 [1; 2; 3] 500 100 Registry.Active;
         Registry.mkAgreement 8 [4; 5; 6] 590 100 Registry.Active ]
       2 1 []).
Proof. by apply (bool_decide_unpack _). Qed.

Lemma Selection_preserves_wf_witness :
  let r := Registry.mk
             [ Registry.mkAgreement 7 [1; 2; 3] 500 100 Registry.Active;
               Registry.mkAgreement 8 [4; 5; 6] 590 100 Registry.Active ]
             2 1 [] in
  Registry.wf r ∧ Registry.wf (Registry.Selection (λ _, 0) 601 r).2.
Proof.
  simpl. split; [exact example_registry_wf|].
  exact (Selection_preserves_wf (λ _, 0) 601 _ example_registry_wf).
Defined.

Lemma Selection_presents_witness :
  let r := Registry.mk
             [ Registry.mkAgreement 7 [1; 2; 3] 500 100 Registry.Active;
               Registry.mkAgreement 8 [4; 5; 6] 590 100 Registry.Active ]
             2 1 [] in
  Registry.wf r
  ∧ match Registry.Selection (λ _, 0) 601 r with
    | (Some a, r') =>
        a ∈ Registry.activeGroupList r'
        ∧ Registry.state a = Registry.Active
        ∧ (601 ≤ Registry.registrationTime a + Registry.timeout a
           ∨ Registry.activeGroupsCounter r' < Registry.activeGroupsThreshold r')
    | (None, r') => Registry.activeGroupList r' = []
    end.
Proof.
  split; [exact example_registry_wf|].
  exact (Selection_presents (λ _, 0) 601 _ example_registry_wf).
Defined.

Lemma Registration_wf_witness :
  let r := Registry.mk
             [ Registry.mkAgreement 7 [1; 2; 3] 500 100 Registry.Active;
               Registry.mkAgreement 8 [4; 5; 6] 590 100 Registry.Active ]
             2 1 [] in
  Registry.wf r
  ∧ (Registry.wf (Registry.Registration 9 [7; 8; 9] 600 100 r)
     ↔ 9 ∉ Registry.id
            <$> (Registry.activeGroupList r ++ Registry.expiredGroupList r)).
Proof.
  simpl. split; [exact example_registry_wf|].
  exact (Registration_wf 9 [7; 8; 9] 600 100 _ example_registry_wf).
Defined.

Lemma registered_group_stays_active_witness :
  650 ≤ 600 + 100
  ∧ Registry.mkAgreement 9 [7; 8; 9] 600 100 Registry.Active
    ∈ Registry.activeGroupList
        (Registry.Selection (λ _, 0) 650
           (Registry.Registration 9 [7; 8; 9] 600 100 (Registry.empty 0))).2.
Proof.
  assert (Hle : 650 ≤ 600 + 100) by lia.
  split; [exact Hle|].
  exact (registered_group_stays_active 9 [7; 8; 9] 600 100 (Registry.empty 0)
           (λ _, 0) 650 Hle).
Defined.
